(** * The resumable evaluation runner of the function-calling leaderboard

    A shallow embedding of [openfunctions_evaluation.py] and of
    [model_handler/handler.py] ([BaseHandler.write]), followed by the
    properties of the runner: category resolution, selection of the
    pending test cases, the retry loop around one inference call, and the
    append-only result logs.

    Conventions of the embedding.
    - Python [str] values are [string]s (sequences of bytes); [lower] acts
      on the ASCII letters.
    - The file system is a finite map from path strings to the lines of
      the file, and a set of directories.  Every line of a result log is
      one JSON value (the runner writes [json.dumps(entry) + "\n"]); a
      benchmark data file is the list of its test cases.  Opening a file
      fails when the file to read, or the directory of the file to append
      to, does not exist.  A path is the string the program builds: the
      properties that tell two files apart are stated for names that are
      plain path components.
    - The adapter ([handler.inference]) is an arbitrary state transformer:
      it may answer or raise on any call. *)

From Equations Require Import Equations.
From stdpp Require Import gmap strings list fin_maps.
From Stdlib Require Import ZArith Ascii.

Local Open Scope Z_scope.
Local Open Scope nat_scope.

(** ** Python string operations used by the runner *)

Module PyStr.

(** [c.lower()] on one byte. *)
Definition lower_ascii (c : ascii) : ascii :=
  let n := nat_of_ascii c in
  if (65 <=? n) && (n <=? 90) then ascii_of_nat (n + 32) else c.

(** [s.lower()] *)
Fixpoint lower (s : string) : string :=
  match s with
  | EmptyString => EmptyString
  | String c s' => String (lower_ascii c) (lower s')
  end.

(** [s.startswith(p)] *)
Fixpoint startswith (p s : string) : bool :=
  match p, s with
  | EmptyString, _ => true
  | String a p', String b s' => if decide (a = b) then startswith p' s' else false
  | String _ _, EmptyString => false
  end.

(** [sub in s] *)
Fixpoint contains (sub s : string) : bool :=
  startswith sub s ||
  match s with
  | EmptyString => false
  | String _ s' => contains sub s'
  end.

(** [s.replace(old, new)] for a non-empty [old]: the occurrences of
    [old] are replaced from left to right, without overlap.  [skip]
    counts the characters of a matched occurrence still to be dropped. *)
Fixpoint replace_from (old new : string) (skip : nat) (s : string) : string :=
  match s with
  | EmptyString => EmptyString
  | String c s' =>
      match skip with
      | S k => replace_from old new k s'
      | O =>
          if startswith old s
          then new +:+ replace_from old new (String.length old - 1) s'
          else String c (replace_from old new 0 s')
      end
  end.

Definition replace (old new s : string) : string := replace_from old new 0 s.

(** The part of [s] before the last occurrence of [sep], when there is
    one. *)
Fixpoint before_last (sep : ascii) (s : string) : option string :=
  match s with
  | EmptyString => None
  | String c s' =>
      match before_last sep s' with
      | Some p => Some (String c p)
      | None => if decide (c = sep) then Some EmptyString else None
      end
  end.

(** [s.rsplit(sep, 1)[0]]: [s] itself when [sep] does not occur. *)
Definition rsplit1_head (sep : ascii) (s : string) : string :=
  default s (before_last sep s).

End PyStr.

(** ** Data model *)

(** Values read by [json.loads] and written by [json.dumps].  The runner
    never computes on numbers; it only passes them on. *)
#[local] Unset Elimination Schemes.
Inductive json : Type :=
| JNull
| JBool (b : bool)
| JNum (n : Z)
| JStr (s : string)
| JList (l : list json)
| JDict (kv : list (string * json)).
#[local] Set Elimination Schemes.

(** [d[key]] on the items of a dict. *)
Fixpoint dict_get (key : string) (kv : list (string * json)) : option json :=
  match kv with
  | [] => None
  | (k, v) :: kv' => if decide (k = key) then Some v else dict_get key kv'
  end.

(** A test case as loaded from a benchmark data file: a dict with the keys
    ["id"], ["question"] and ["function"]. *)
Record TestCase : Type := {
  tc_id : string;
  tc_question : json;
  tc_function : json
}.

(** The usage dict returned next to a result by an interactive adapter. *)
Record Metadata : Type := {
  input_tokens : json;
  output_tokens : json;
  latency : json
}.

(** An exception raised by an adapter: [str(e)] and [e.status_code], when
    the attribute exists. *)
Record PyExn : Type := {
  exn_str : string;
  exn_status_code : option Z
}.

(** What leaves the runner as an uncaught exception. *)
Inductive Raised : Type :=
| AdapterError (e : PyExn)
| UnboundLocalError (name : string)
| KeyError (key : string)
| TypeError
| AttributeError
| FileNotFoundError (path : string).

(** Modelled from the spec: [model_handler/model_style.py] is absent.  The
    runner only tests a handler's style against [OSSMODEL], the tag of the
    batch-native adapters; every other style is an interactive one. *)
Inductive ModelStyle : Type :=
| OSSMODEL
| InteractiveStyle.

#[global] Instance ModelStyle_eq_dec : EqDecision ModelStyle.
Proof. solve_decision. Defined.

(** Observable actions of a run besides the file system. *)
Inductive Event : Type :=
| EvInference (question functions : json) (test_category : string)
| EvInferenceBatch (test_question : list TestCase)
| EvSleep (seconds : Z).

(** The world a run acts on: the directories that exist, the benchmark
    data files, the result files with their lines, and the calls made so
    far.  Directories and files are kept under the path the program names
    them by; two paths are told apart as strings, which is how the file
    system tells them apart when their components are plain names (see
    [plain_component]).  The working directory exists and holds no regular
    file where the runner makes a directory. *)
Record World : Type := {
  dirs : gset string;
  data : gmap string (list TestCase);
  files : gmap string (list json);
  trace : list Event
}.

Definition emit (ev : Event) (w : World) : World :=
  {| dirs := dirs w; data := data w; files := files w; trace := trace w ++ [ev] |}.

(** The directories [os.makedirs(path)] makes sure of: [path] and the
    directories above it, which are the parts of [path] before each of its
    slashes.  [above] is the part of the path already read. *)
Fixpoint path_prefixes (above rest : string) : list string :=
  match rest with
  | EmptyString => [above]
  | String c rest' =>
      (if decide (c = "/"%char) then [above] else [])
      ++ path_prefixes (above +:+ String c EmptyString) rest'
  end.

(** [os.makedirs(path, exist_ok=True)] *)
Definition makedirs (path : string) (w : World) : World :=
  {| dirs := list_to_set (path_prefixes "" path) ∪ dirs w;
     data := data w; files := files w; trace := trace w |}.

(** The lines of a file after [f.write(line)] on a file opened with
    [open(path, "a+")]: the file is created when absent. *)
Definition append_line (path : string) (line : json) (w : World) : World :=
  {| dirs := dirs w; data := data w;
     files := <[path := default [] (files w !! path) ++ [line]]> (files w);
     trace := trace w |}.

(** Whether [open(path, "a+")] finds the directory of the file: the part of
    [path] before its last slash is the working directory, the root or a
    directory that exists. *)
Definition parent_exists (path : string) (w : World) : bool :=
  match PyStr.before_last "/" path with
  | None => true
  | Some parent => bool_decide (parent = "" ∨ parent = "." ∨ parent ∈ dirs w)
  end.

(** [with open(path, "a+") as f: f.write(line)]: a missing directory raises
    [FileNotFoundError]. *)
Definition open_append (path : string) (line : json) (w : World)
    : World * (Raised + unit) :=
  if parent_exists path w then (append_line path line w, inr tt)
  else (w, inl (FileNotFoundError path)).

(** ** [TEST_FILE_MAPPING] *)

Definition TEST_FILE_MAPPING : gmap string string :=
  list_to_map [
    ("executable_simple", "gorilla_openfunctions_v1_test_executable_simple.json");
    ("executable_parallel_function", "gorilla_openfunctions_v1_test_executable_parallel_function.json");
    ("executable_multiple_function", "gorilla_openfunctions_v1_test_executable_multiple_function.json");
    ("executable_parallel_multiple_function", "gorilla_openfunctions_v1_test_executable_parallel_multiple_function.json");
    ("simple", "gorilla_openfunctions_v1_test_simple.json");
    ("relevance", "gorilla_openfunctions_v1_test_relevance.json");
    ("parallel_function", "gorilla_openfunctions_v1_test_parallel_function.json");
    ("multiple_function", "gorilla_openfunctions_v1_test_multiple_function.json");
    ("parallel_multiple_function", "gorilla_openfunctions_v1_test_parallel_multiple_function.json");
    ("rest", "gorilla_openfunctions_v1_test_rest.json")
  ].

(** ** [BaseHandler.write] *)

(** [entry["id"].rsplit("_", 1)[0]] *)
Definition category_of_id (id : string) : string := PyStr.rsplit1_head "_" id.

Definition model_name_dir (model_name : string) : string :=
  PyStr.replace "/" "_" model_name.

Definition result_dir (language model_name : string) : string :=
  "./result/" +:+ language +:+ "/" +:+ model_name_dir model_name.

(** The log file [write] appends an entry of category [test_category] to. *)
Definition file_to_write (language model_name test_category : string) : string :=
  result_dir language model_name +:+ "/gorilla_openfunctions_v1_test_"
    +:+ test_category +:+ "_result.json".

(** The [id] of an entry, a string, or the exception its lookup raises. *)
Definition entry_id (entry : json) : Raised + string :=
  match entry with
  | JDict kv =>
      match dict_get "id" kv with
      | Some (JStr id) => inr id
      | Some _ => inl AttributeError
      | None => inl (KeyError "id")
      end
  | _ => inl TypeError
  end.

(** The body of [for entry in result]; the loop stops at the first entry
    whose id cannot be read or whose file cannot be opened, the earlier
    entries staying written. *)
Fixpoint write_entries (model_name language : string) (entries : list json)
    (w : World) : World * (Raised + unit) :=
  match entries with
  | [] => (w, inr tt)
  | entry :: rest =>
      match entry_id entry with
      | inl err => (w, inl err)
      | inr id =>
          let test_category := category_of_id id in
          match open_append (file_to_write language model_name test_category)
                  entry w with
          | (w', inl err) => (w', inl err)
          | (w', inr _) => write_entries model_name language rest w'
          end
      end
  end.

(** A dict is written as the list of itself; a list is written entry by
    entry; the loop over the empty string has no iteration, the loop over
    another string fails on its first character, and the other values
    cannot be iterated over. *)
Definition write (model_name : string) (result : json) (language : string)
    (w : World) : World * (Raised + unit) :=
  let w := makedirs (result_dir language model_name) w in
  match result with
  | JDict _ => write_entries model_name language [result] w
  | JList l => write_entries model_name language l w
  | JStr EmptyString => (w, inr tt)
  | _ => (w, inl TypeError)
  end.

(** ** Exceptions as values *)

Definition Result (A : Type) : Type := (Raised + A)%type.

Notation "'try' x ':=' m 'in' k" :=
  (match m with inl err => inl err | inr x => k end)
  (at level 10, x pattern, m at level 100, k at level 200, only parsing).

(** ** The runner: [openfunctions_evaluation.py] *)

(** The command line of a run, after lines 155-158 have made lists of
    [--model] and [--test-category].  The generation parameters
    (temperature, top-p, max tokens, GPU settings) are only handed to the
    adapter and are part of its state here. *)
Record Args : Type := {
  model : list string;
  test_category : list string;
  language : string
}.

Definition RETRY_LIMIT : nat := 3.
Definition RETRY_DELAY : Z := 65.

(** The adapter interface of [BaseHandler].  [inference] is the call of an
    interactive adapter, [inference_batch] the call
    [handler.inference(test_question=..., num_gpus=..., ...)] of a
    batch-native one; both may raise. *)
Class Handler (H : Type) : Type := {
  inference : H → json → json → string → H * (PyExn + json * Metadata);
  inference_batch : H → list TestCase → H * (PyExn + list json * json)
}.

(** How one pass through the [while] loop of [generate_results] ends. *)
Inductive LoopExit : Type :=
| Break (result : json) (metadata : Metadata)
| Exhausted
| Reraise (e : PyExn).

(** The test of the [except] block: a rate-limit message or one of the
    status codes 429, 503, 500. *)
Definition is_transient (e : PyExn) : bool :=
  PyStr.contains "rate limit reached" (PyStr.lower (exn_str e))
  || match exn_status_code e with
     | Some code => (code =? 429)%Z || (code =? 503)%Z || (code =? 500)%Z
     | None => false
     end.

(** [if type(functions) is dict or type(functions) is str: functions = [functions]] *)
Definition normalize_functions (functions : json) : json :=
  match functions with
  | JDict _ | JStr _ => JList [functions]
  | _ => functions
  end.

Definition result_to_write_batch (test_case : TestCase) (res : json) : json :=
  JDict [("id", JStr (tc_id test_case)); ("result", res)].

Definition result_to_write (test_case : TestCase) (result : json)
    (metadata : Metadata) : json :=
  JDict [("id", JStr (tc_id test_case));
         ("result", result);
         ("input_token_count", input_tokens metadata);
         ("output_token_count", output_tokens metadata);
         ("latency", latency metadata)].

Section Runner.

Context {H : Type} `{Handler H}.

(** Tables of the repository that are not part of the sources at hand:
    the alias table, the adapter registry (a handler class and the state
    of a fresh instance per model name) and a feature switch. *)
Variable TEST_COLLECTION_MAPPING : gmap string (list string).
Variable handler_map : gmap string (ModelStyle * H).
Variable USE_COHERE_OPTIMIZATION : bool.

(** *** [parse_test_category_argument] *)

(** The two statements adding one leaf category: its name and its data
    file.  The lookup in [TEST_FILE_MAPPING] raises on an unknown name. *)
Definition add_test_name (test_name : string) (acc : gset string * gset string)
    : Result (gset string * gset string) :=
  match TEST_FILE_MAPPING !! test_name with
  | Some filename => inr ({[test_name]} ∪ acc.1, {[filename]} ∪ acc.2)
  | None => inl (KeyError test_name)
  end.

Fixpoint add_test_names (test_names : list string) (acc : gset string * gset string)
    : Result (gset string * gset string) :=
  match test_names with
  | [] => inr acc
  | test_name :: rest =>
      try acc' := add_test_name test_name acc in add_test_names rest acc'
  end.

Fixpoint parse_loop (test_category_args : list string)
    (acc : gset string * gset string) : Result (gset string * gset string) :=
  match test_category_args with
  | [] => inr acc
  | test_category :: rest =>
      try acc' :=
        match TEST_COLLECTION_MAPPING !! test_category with
        | Some test_names => add_test_names test_names acc
        | None => add_test_name test_category acc
        end
      in parse_loop rest acc'
  end.

(** The two sets are returned as lists; [elements] fixes one of the
    orders a Python set may be listed in. *)
Definition parse_test_category_argument (test_category_args : list string)
    : Result (list string * list string) :=
  try acc := parse_loop test_category_args (∅, ∅) in
  inr (elements acc.1, elements acc.2).

(** *** [collect_test_cases] *)

Definition data_path (language file_to_open : string) : string :=
  "./data/" +:+ language +:+ "/" +:+ file_to_open.

Definition result_path (language model_name file_to_open : string) : string :=
  "./result/" +:+ language +:+ "/" +:+ PyStr.replace "/" "_" model_name
    +:+ "/" +:+ PyStr.replace ".json" "_result.json" file_to_open.

(** Lines 69-83: the number of lines of the result file, 0 when the file
    does not exist. *)
Definition num_existing_result (language model_name file_to_open : string)
    (w : World) : nat :=
  match files w !! result_path language model_name file_to_open with
  | Some lines => length lines
  | None => 0
  end.

Fixpoint collect_loop (language : string) (test_filename_total : list string)
    (model_name : string) (w : World) (test_cases_total : list TestCase)
    : Result (list TestCase) :=
  match test_filename_total with
  | [] => inr test_cases_total
  | file_to_open :: rest =>
      match data w !! data_path language file_to_open with
      | None => inl (FileNotFoundError (data_path language file_to_open))
      | Some test_cases =>
          let n := num_existing_result language model_name file_to_open w in
          collect_loop language rest model_name w
            (test_cases_total ++ drop n test_cases)
      end
  end.

Definition collect_test_cases (language : string)
    (test_filename_total : list string) (model_name : string) (w : World)
    : Result (list TestCase) :=
  collect_loop language test_filename_total model_name w [].

(** *** [generate_results] *)

(** The [while retry_count < RETRY_LIMIT] loop around one inference
    call. *)
Equations? retry_loop (h : H) (w : World) (question functions : json)
    (test_category : string) (retry_count : nat) : H * World * LoopExit
    by wf (RETRY_LIMIT - retry_count) lt :=
  retry_loop h w question functions test_category retry_count
    with decide (retry_count < RETRY_LIMIT) := {
    | right _ => (h, w, Exhausted)
    | left _ with inference h question functions test_category := {
        | (h', inr (result, metadata)) =>
            (h', emit (EvInference question functions test_category) w,
             Break result metadata)
        | (h', inl e) with is_transient e := {
            | true =>
                retry_loop h'
                  (emit (EvSleep RETRY_DELAY)
                     (emit (EvInference question functions test_category) w))
                  question functions test_category (retry_count + 1)
            | false =>
                (h', emit (EvInference question functions test_category) w,
                 Reraise e)
          }
      }
  }.
Proof. lia. Qed.

(** The [for test_case in test_cases_total] loop of the interactive
    branch.  [bound] holds the locals [result] and [metadata], which
    Python keeps from one iteration to the next. *)
Fixpoint interactive_loop (args : Args) (model_name : string) (h : H)
    (bound : option (json * Metadata)) (test_cases : list TestCase)
    (w : World) : World * Result unit :=
  match test_cases with
  | [] => (w, inr tt)
  | test_case :: rest =>
      let user_question := tc_question test_case in
      let functions := normalize_functions (tc_function test_case) in
      let test_category := category_of_id (tc_id test_case) in
      match retry_loop h w user_question functions test_category 0 with
      | (h', w', Reraise e) => (w', inl (AdapterError e))
      | (h', w', exit) =>
          let bound' :=
            match exit with
            | Break result metadata => Some (result, metadata)
            | _ => bound
            end in
          match bound' with
          | None => (w', inl (UnboundLocalError "result"))
          | Some (result, metadata) =>
              match write model_name (result_to_write test_case result metadata)
                      (language args) w' with
              | (w'', inl err) => (w'', inl err)
              | (w'', inr _) => interactive_loop args model_name h' bound' rest w''
              end
          end
      end
  end.

(** The [for test_case, res in zip(test_cases_total, result)] loop of the
    batch-native branch. *)
Fixpoint batch_loop (args : Args) (model_name : string)
    (pairs : list (TestCase * json)) (w : World) : World * Result unit :=
  match pairs with
  | [] => (w, inr tt)
  | (test_case, res) :: rest =>
      match write model_name (result_to_write_batch test_case res)
              (language args) w with
      | (w', inl err) => (w', inl err)
      | (w', inr _) => batch_loop args model_name rest w'
      end
  end.

(** [build_handler] looks the model up in [handler_map]; the handler it
    returns carries the model name it was built with. *)
Definition generate_results (args : Args) (model_name : string)
    (test_cases_total : list TestCase) (w : World) : World * Result unit :=
  match handler_map !! model_name with
  | None => (w, inl (KeyError model_name))
  | Some (model_style, h) =>
      if decide (model_style = OSSMODEL) then
        let w := emit (EvInferenceBatch test_cases_total) w in
        match inference_batch h test_cases_total with
        | (_, inl e) => (w, inl (AdapterError e))
        | (_, inr (result, metadata)) =>
            batch_loop args model_name (zip test_cases_total result) w
        end
      else
        interactive_loop args model_name h None test_cases_total w
  end.

(** *** The main program *)

(** Lines 165-166: the name a model is run under. *)
Definition optimized_model_name (model_name : string) : string :=
  if USE_COHERE_OPTIMIZATION && PyStr.contains "command-r-plus" model_name
  then model_name +:+ "-optimized" else model_name.

(** The body of [for model_name in args.model]. *)
Definition run_model (args : Args) (test_filename_total : list string)
    (model_name : string) (w : World) : World * Result unit :=
  let model_name := optimized_model_name model_name in
  let w := makedirs ("./data/" +:+ language args) w in
  let w := makedirs ("./result/" +:+ language args +:+ "/"
                       +:+ PyStr.replace "/" "_" model_name) w in
  match collect_test_cases (language args) test_filename_total model_name w with
  | inl err => (w, inl err)
  | inr test_cases_total =>
      if length test_cases_total =? 0 then (w, inr tt)
      else generate_results args model_name test_cases_total w
  end.

Fixpoint run_models (args : Args) (test_filename_total : list string)
    (models : list string) (w : World) : World * Result unit :=
  match models with
  | [] => (w, inr tt)
  | model_name :: rest =>
      match run_model args test_filename_total model_name w with
      | (w', inl err) => (w', inl err)
      | (w', inr _) => run_models args test_filename_total rest w'
      end
  end.

Definition main (args : Args) (w : World) : World * Result unit :=
  match parse_test_category_argument (test_category args) with
  | inl err => (w, inl err)
  | inr (test_name_total, test_filename_total) =>
      run_models args test_filename_total (model args) w
  end.

End Runner.

(** ** A scripted adapter

    An adapter whose calls are answered, one by one, by a list of outcomes
    fixed in advance; it is used to run the program on concrete inputs. *)

Record Script : Type := {
  answers : list (PyExn + json * Metadata);
  batch_answer : PyExn + list json * json
}.

#[global] Instance Script_Handler : Handler Script := {|
  inference s _ _ _ :=
    match answers s with
    | [] => (s, inl {| exn_str := "no answer left"; exn_status_code := None |})
    | a :: rest => ({| answers := rest; batch_answer := batch_answer s |}, a)
    end;
  inference_batch s _ := (s, batch_answer s)
|}.

Definition interactive_script (answers : list (PyExn + json * Metadata)) : Script :=
  {| answers := answers; batch_answer := inl {| exn_str := "not a batch adapter"; exn_status_code := None |} |}.


Definition usage (n : Z) : Metadata :=
  {| input_tokens := JNum n; output_tokens := JNum (2 * n); latency := JNum 1 |}.

Definition rate_limited : PyExn :=
  {| exn_str := "Error code: 429 - Rate limit reached for requests"; exn_status_code := Some 429%Z |}.

Definition unauthorized : PyExn :=
  {| exn_str := "Incorrect API key provided"; exn_status_code := Some 401%Z |}.

Definition simple_case (index : string) : TestCase :=
  {| tc_id := "simple_" +:+ index;
     tc_question := JStr "What is the area of a circle of radius 2?";
     tc_function := JDict [("name", JStr "circle_area")] |}.

Definition empty_world : World :=
  {| dirs := ∅; data := ∅; files := ∅; trace := [] |}.

(** The category an entry is routed to by [write], when its id can be
    read. *)
Definition entry_category (entry : json) : option string :=
  match entry_id entry with
  | inr id => Some (category_of_id id)
  | inl _ => None
  end.

Definition in_category (test_category : string) (entry : json) : bool :=
  bool_decide (entry_category entry = Some test_category).




(** A log of the category "simple" holding one record of another
    category. *)
Definition foreign_record : json :=
  JDict [("id", JStr "rest_0"); ("result", JStr "requests.get(url)")].

Definition mixed_log_world : World :=
  {| dirs := ∅; data := ∅;
     files := {[ "./result/en/m/gorilla_openfunctions_v1_test_simple_result.json"
                   := [foreign_record] ]};
     trace := [] |}.

(** The leaf categories a requested token stands for: the members of the
    alias, or the token itself. *)
Definition expand_category (TEST_COLLECTION_MAPPING : gmap string (list string))
    (test_category : string) : list string :=
  default [test_category] (TEST_COLLECTION_MAPPING !! test_category).

(** The pending cases of one data file: its cases after the first
    [num_existing_result] ones. *)
Definition pending_of (language model_name : string) (w : World)
    (file_to_open : string) : list TestCase :=
  drop (num_existing_result language model_name file_to_open w)
       (default [] (data w !! data_path language file_to_open)).

(** The scenario of a resumed run: three cases of "simple", the first one
    already recorded. *)
Definition resumed_world : World :=
  {| dirs := ∅;
     data := {[ "./data/en/gorilla_openfunctions_v1_test_simple.json"
                  := [simple_case "0"; simple_case "1"; simple_case "2"] ]};
     files := {[ "./result/en/m/gorilla_openfunctions_v1_test_simple_result.json"
                   := [result_to_write (simple_case "0") (JStr "circle_area(radius=2)")
                         (usage 7)] ]};
     trace := [] |}.

(** The id recorded by a line of a log, when it can be read. *)
Definition recorded_id (entry : json) : option string :=
  match entry_id entry with
  | inr id => Some id
  | inl _ => None
  end.

(** The log of a category for a model, as [write] names it. *)
Definition log_of (language model_name test_category : string) (w : World)
    : list json :=
  default [] (files w !! file_to_write language model_name test_category).

(** The cases of a data file, none when the file is absent. *)
Definition cases_of (language file_to_open : string) (w : World) : list TestCase :=
  default [] (data w !! data_path language file_to_open).

(** The ids of the benchmark data have the format "<category>_<index>":
    every case of the data file of a category has an id of that category. *)
Definition well_formed_data (w : World) : Prop :=
  ∀ language test_category file_to_open test_cases,
    TEST_FILE_MAPPING !! test_category = Some file_to_open →
    data w !! data_path language file_to_open = Some test_cases →
    Forall (λ test_case, category_of_id (tc_id test_case) = test_category)
           test_cases.

(** The prefix invariant: the ids recorded in the log of a category are
    the ids of the first [k] cases of that category, in their order. *)
Definition prefix_invariant (w : World) : Prop :=
  ∀ language model_name test_category file_to_open,
    TEST_FILE_MAPPING !! test_category = Some file_to_open →
    ∃ k, recorded_id <$> log_of language model_name test_category w
         = (Some ∘ tc_id) <$> take k (cases_of language file_to_open w).

(** One invocation of the program: the adapters it finds and its command
    line. *)
Record Run (H : Type) : Type := {
  run_handlers : gmap string (ModelStyle * H);
  run_args : Args
}.
Arguments run_handlers {H} _.
Arguments run_args {H} _.


(** Whether a character occurs in a string. *)
Fixpoint has_char (c : ascii) (s : string) : bool :=
  match s with
  | EmptyString => false
  | String x s' => bool_decide (x = c) || has_char c s'
  end.



(** The logs after the record [p.2] of the test case [p.1] has been
    appended by [write]. *)
Definition append_record (language model_name : string)
    (logs : gmap string (list json)) (p : TestCase * json)
    : gmap string (list json) :=
  <[file_to_write language model_name (category_of_id (tc_id p.1)) :=
      default [] (logs !! file_to_write language model_name (category_of_id (tc_id p.1)))
      ++ [p.2]]> logs.

(** A test case of one of the categories that have a data file. *)
Definition known_category (test_case : TestCase) : Prop :=
  is_Some (TEST_FILE_MAPPING !! category_of_id (tc_id test_case)).

(** The invariant of a run of the model [model0] in the language
    [language0] while the cases [remaining] are still to be processed: in
    every log, the recorded ids followed, for the logs of this run, by the
    ids of the remaining cases of the category, are the ids of the first
    cases of the category. *)
Definition pending_invariant (language0 model0 : string)
    (cases : gmap string (list TestCase)) (logs : gmap string (list json))
    (remaining : list TestCase) : Prop :=
  ∀ language model_name test_category file_to_open,
    TEST_FILE_MAPPING !! test_category = Some file_to_open →
    ∃ k,
      (recorded_id <$> default []
         (logs !! file_to_write language model_name test_category))
      ++ (if decide (language = language0
                     ∧ model_name_dir model_name = model_name_dir model0)
          then (Some ∘ tc_id) <$>
               filter (λ test_case, category_of_id (tc_id test_case) = test_category)
                      remaining
          else [])
      = (Some ∘ tc_id) <$>
        take k (default [] (cases !! data_path language file_to_open)).

(** A batch-native adapter answers every question: the list it returns is
    at least as long as the list it was given. *)
Definition batch_answers_all {H : Type} `{Handler H}
    (handler_map : gmap string (ModelStyle * H)) : Prop :=
  ∀ model_name h test_cases h' result metadata,
    handler_map !! model_name = Some (OSSMODEL, h) →
    inference_batch h test_cases = (h', inr (result, metadata)) →
    length test_cases ≤ length result.

(** Every case of a data file has a line in the log of the file for the
    model: the selector finds nothing pending in the file. *)
Definition all_recorded (language model_name : string) (w : World)
    (file_to_open : string) : Prop :=
  length (cases_of language file_to_open w)
  ≤ num_existing_result language model_name file_to_open w.

(** The number of lines of the log of a category plus the number of cases
    of the category among those still to be processed. *)
Definition counted (language model_name : string)
    (logs : gmap string (list json)) (remaining : list TestCase)
    (test_category : string) : nat :=
  length (default [] (logs !! file_to_write language model_name test_category))
  + length (filter (λ test_case, category_of_id (tc_id test_case) = test_category)
              remaining).

(** The data of the scenarios: the three cases of "simple". *)
Definition scenario_world : World :=
  {| dirs := ∅;
     data := {[ "./data/en/gorilla_openfunctions_v1_test_simple.json"
                  := [simple_case "0"; simple_case "1"; simple_case "2"] ]};
     files := ∅;
     trace := [] |}.

Definition scenario_args : Args :=
  {| model := ["m"]; test_category := ["simple"]; language := "en" |}.

(** A run in which the adapter answers the first call and is refused on
    the second, and a run in which it answers every call. *)
Definition refused_run : Run Script :=
  {| run_handlers :=
       {[ "m" := (InteractiveStyle,
                  interactive_script
                    [inr (JStr "circle_area(radius=2)", usage 7); inl unauthorized]) ]};
     run_args := scenario_args |}.

Definition complete_run : Run Script :=
  {| run_handlers :=
       {[ "m" := (InteractiveStyle,
                  interactive_script
                    [inr (JStr "circle_area(radius=2)", usage 7);
                     inl rate_limited;
                     inr (JStr "circle_area(radius=3)", usage 8);
                     inr (JStr "circle_area(radius=4)", usage 9)]) ]};
     run_args := scenario_args |}.

(** The world [w'] continues [w]: the benchmark data are the same, no
    directory has gone, and every file of [w] is still there with its lines
    as the first lines. *)
Definition extends (w w' : World) : Prop :=
  data w' = data w
  ∧ dirs w ⊆ dirs w'
  ∧ ∀ path lines,
      files w !! path = Some lines →
      ∃ added, files w' !! path = Some (lines ++ added).

Definition is_call (ev : Event) : bool :=
  match ev with
  | EvInference _ _ _ => true
  | _ => false
  end.

Definition is_sleep (ev : Event) : bool :=
  match ev with
  | EvSleep _ => true
  | _ => false
  end.

(** The number of adapter calls and of sleeps among some events. *)
Definition count_calls (evs : list Event) : nat :=
  length (filter (λ ev, is_call ev = true) evs).

Definition count_sleeps (evs : list Event) : nat :=
  length (filter (λ ev, is_sleep ev = true) evs).

(** The adapter call the interactive runner makes for a test case. *)
Definition call_of (test_case : TestCase) : Event :=
  EvInference (tc_question test_case)
    (normalize_functions (tc_function test_case))
    (category_of_id (tc_id test_case)).

(** The events of the processing of one test case: a call for this case,
    followed by sleeps and further calls for this same case. *)
Definition case_events (test_case : TestCase) (block : list Event) : Prop :=
  ∃ rest,
    block = call_of test_case :: rest
    ∧ Forall (λ ev, ev = call_of test_case ∨ ev = EvSleep RETRY_DELAY) rest.

(** A plain path component: a name that is not empty, is neither "." nor
    "..", and has no slash. *)
Definition plain_component (name : string) : Prop :=
  name ≠ "" ∧ name ≠ "." ∧ name ≠ ".." ∧ has_char "/" name = false.

(** * Properties *)

(** ** Strings *)

Section StringFacts.

Lemma append_nil_l (s : string) : "" +:+ s = s.
Proof. reflexivity. Qed.

Lemma append_cons (x : ascii) (a b : string) :
  String x a +:+ b = String x (a +:+ b).
Proof. reflexivity. Qed.

Lemma append_assoc (a b c : string) : (a +:+ b) +:+ c = a +:+ b +:+ c.
Proof.
  induction a as [|x a IH]; [done|]. rewrite !append_cons. by rewrite IH.
Qed.

Lemma length_append (a b : string) :
  String.length (a +:+ b) = String.length a + String.length b.
Proof.
  induction a as [|x a IH]; [done|]. rewrite append_cons. simpl. by rewrite IH.
Qed.

Lemma append_inj_r (a b s : string) : a +:+ s = b +:+ s → a = b.
Proof.
  revert b. induction a as [|x a IH]; intros [|y b] Heq.
  - done.
  - apply (f_equal String.length) in Heq.
    rewrite !length_append in Heq. simpl in Heq. lia.
  - apply (f_equal String.length) in Heq.
    rewrite !length_append in Heq. simpl in Heq. lia.
  - rewrite !append_cons in Heq. injection Heq as -> Heq. f_equal. by apply IH.
Qed.

Lemma startswith_spec (p s : string) :
  PyStr.startswith p s = true ↔ ∃ r, s = p +:+ r.
Proof.
  revert s. induction p as [|a p IH]; intros s; simpl.
  - split; [intros _; by exists s | done].
  - destruct s as [|b s].
    + split; [done | intros [r Hr]; discriminate].
    + destruct (decide (a = b)) as [->|Hne].
      * rewrite IH. split; intros [r Hr]; exists r.
        -- rewrite append_cons. congruence.
        -- rewrite append_cons in Hr. congruence.
      * split; [done | intros [r Hr]; rewrite append_cons in Hr; congruence].
Qed.

Lemma contains_unfold (sub s : string) :
  PyStr.contains sub s =
  PyStr.startswith sub s
  || match s with EmptyString => false | String _ s' => PyStr.contains sub s' end.
Proof. by destruct s. Qed.

Lemma contains_spec (sub s : string) :
  PyStr.contains sub s = true ↔ ∃ a b, s = a +:+ sub +:+ b.
Proof.
  split.
  - induction s as [|c s IH]; rewrite contains_unfold; intros Hc.
    + rewrite orb_false_r in Hc. apply startswith_spec in Hc as [r Hr].
      exists EmptyString, r. done.
    + apply orb_true_iff in Hc as [Hc|Hc].
      * apply startswith_spec in Hc as [r Hr]. by exists EmptyString, r.
      * destruct (IH Hc) as (a & b & ->). by exists (String c a), b.
  - intros (a & b & ->). induction a as [|c a IH]; rewrite contains_unfold.
    + apply orb_true_iff. left. apply startswith_spec. by exists b.
    + rewrite append_cons, IH. apply orb_true_r.
Qed.

Lemma has_char_append c (a b : string) :
  has_char c (a +:+ b) = has_char c a || has_char c b.
Proof.
  induction a as [|x a IH]; [done|]. rewrite append_cons. simpl.
  by rewrite IH, orb_assoc.
Qed.

(** [model_name.replace("/", "_")] leaves no slash. *)
Lemma replace_slash_no_slash (s : string) :
  has_char "/" (PyStr.replace "/" "_" s) = false.
Proof.
  unfold PyStr.replace. induction s as [|x s IH]; [done|].
  simpl. destruct (decide ("/"%char = x)) as [<-|Hne]; simpl.
  - exact IH.
  - rewrite IH, orb_false_r. apply bool_decide_eq_false. congruence.
Qed.

(** A path is split in one way only at its last slash. *)
Lemma split_last_slash (a b x y : string) :
  has_char "/" x = false → has_char "/" y = false →
  a +:+ String "/" x = b +:+ String "/" y → a = b ∧ x = y.
Proof.
  intros Hx Hy. revert b. induction a as [|c a IH]; intros [|d b] Heq.
  - by injection Heq as ->.
  - rewrite append_cons in Heq. injection Heq as <- ->.
    rewrite has_char_append in Hx. simpl in Hx.
    by rewrite orb_true_r in Hx.
  - rewrite append_cons in Heq. injection Heq as -> <-.
    rewrite has_char_append in Hy. simpl in Hy.
    by rewrite orb_true_r in Hy.
  - rewrite !append_cons in Heq. injection Heq as -> Heq.
    destruct (IH _ Heq) as [-> ->]. done.
Qed.

Lemma before_last_absent sep s :
  has_char sep s = false → PyStr.before_last sep s = None.
Proof.
  induction s as [|x s IH]; [done|]. simpl.
  intros [Hx Hs]%orb_false_iff. rewrite (IH Hs).
  apply bool_decide_eq_false in Hx. by rewrite decide_False.
Qed.

Lemma before_last_append sep head tail :
  PyStr.before_last sep tail = None →
  PyStr.before_last sep (head +:+ String sep tail) = Some head.
Proof.
  intros Htail. induction head as [|x head IH].
  - rewrite append_nil_l. simpl. rewrite Htail. by rewrite decide_True.
  - rewrite append_cons. simpl. by rewrite IH.
Qed.

Lemma replace_slash_length (s : string) :
  String.length (PyStr.replace "/" "_" s) = String.length s.
Proof.
  unfold PyStr.replace. induction s as [|x s IH]; [done|].
  simpl. destruct (decide ("/"%char = x)).
  - rewrite length_append. simpl. f_equal. exact IH.
  - simpl. f_equal. exact IH.
Qed.

Lemma replace_slash_id (s : string) :
  has_char "/" s = false → PyStr.replace "/" "_" s = s.
Proof.
  unfold PyStr.replace. induction s as [|x s IH]; [done|].
  simpl. intros [Hx Hs]%orb_false_iff. apply bool_decide_eq_false in Hx.
  rewrite decide_False by congruence. by rewrite (IH Hs).
Qed.

Lemma lower_append (a b : string) :
  PyStr.lower (a +:+ b) = PyStr.lower a +:+ PyStr.lower b.
Proof.
  induction a as [|x a IH]; [done|].
  rewrite append_cons. simpl. rewrite IH. by rewrite append_cons.
Qed.

End StringFacts.

(** ** The file system *)

Section PathFacts.

Lemma TEST_FILE_MAPPING_lookup test_category filename :
  TEST_FILE_MAPPING !! test_category = Some filename →
  filename = "gorilla_openfunctions_v1_test_" +:+ test_category +:+ ".json"
  ∧ has_char "/" test_category = false
  ∧ PyStr.replace ".json" "_result.json" filename
    = "gorilla_openfunctions_v1_test_" +:+ test_category +:+ "_result.json".
Proof.
  intros Hlookup. apply elem_of_list_to_map_2 in Hlookup.
  repeat (apply elem_of_cons in Hlookup as [[= -> ->]|Hlookup];
          [by vm_compute|]).
  by apply elem_of_nil in Hlookup.
Qed.

(** The log the selector counts is the log [write] appends to. *)
Lemma result_path_file_to_write language model_name test_category filename :
  TEST_FILE_MAPPING !! test_category = Some filename →
  result_path language model_name filename
  = file_to_write language model_name test_category.
Proof.
  intros (_ & _ & Hreplace)%TEST_FILE_MAPPING_lookup.
  unfold result_path, file_to_write, result_dir, model_name_dir.
  rewrite Hreplace, !append_assoc. done.
Qed.

Lemma log_file_name_no_slash test_category :
  has_char "/" test_category = false →
  has_char "/" ("gorilla_openfunctions_v1_test_" +:+ test_category +:+ "_result.json")
  = false.
Proof. intros Hc. rewrite !has_char_append, Hc. done. Qed.

(** Two logs are the same file only for the same language, the same
    result directory and the same category. *)
Lemma file_to_write_eq language1 language2 model1 model2 c1 c2 :
  has_char "/" c1 = false → has_char "/" c2 = false →
  file_to_write language1 model1 c1 = file_to_write language2 model2 c2 →
  language1 = language2
  ∧ model_name_dir model1 = model_name_dir model2
  ∧ c1 = c2.
Proof.
  intros Hc1 Hc2. unfold file_to_write, result_dir.
  change ("/gorilla_openfunctions_v1_test_" +:+ ?c +:+ "_result.json")
    with (String "/" ("gorilla_openfunctions_v1_test_" +:+ c +:+ "_result.json")).
  intros Heq.
  apply split_last_slash in Heq as [Hdir Hname];
    [|by apply log_file_name_no_slash..].
  apply (inj (String.append _)) in Hname. apply append_inj_r in Hname.
  apply (inj (String.append _)) in Hdir.
  change ("/" +:+ ?d) with (String "/" d) in Hdir.
  apply split_last_slash in Hdir as [Hlang Hd];
    [done | apply replace_slash_no_slash..].
Qed.

End PathFacts.

Section WorldFacts.

Lemma file_to_write_inj language model_name c1 c2 :
  file_to_write language model_name c1 = file_to_write language model_name c2 →
  c1 = c2.
Proof.
  unfold file_to_write. intros Heq.
  apply (inj (String.append _)) in Heq.
  apply (inj (String.append _)) in Heq.
  by apply append_inj_r in Heq.
Qed.

Lemma files_makedirs path w : files (makedirs path w) = files w.
Proof. done. Qed.

Lemma files_emit ev w : files (emit ev w) = files w.
Proof. done. Qed.

Lemma lookup_append_line path line w p :
  files (append_line path line w) !! p =
  if decide (path = p) then Some (default [] (files w !! path) ++ [line])
  else files w !! p.
Proof. simpl. rewrite lookup_insert. by destruct (decide (path = p)). Qed.

(** [os.makedirs] makes the directory it is asked for. *)
Lemma path_prefixes_self above rest :
  above +:+ rest ∈ path_prefixes above rest.
Proof.
  revert above. induction rest as [|c rest IH]; intros above; simpl.
  - assert (above +:+ "" = above) as ->; [|apply list_elem_of_here].
    induction above as [|x above IHa]; [done|]. rewrite append_cons. by rewrite IHa.
  - apply elem_of_app. right.
    assert (above +:+ String c rest = (above +:+ String c "") +:+ rest) as ->;
      [|apply IH].
    by rewrite append_assoc.
Qed.

Lemma makedirs_dir path w : path ∈ dirs (makedirs path w).
Proof.
  simpl. apply elem_of_union. left. apply elem_of_list_to_set.
  apply (path_prefixes_self "" path).
Qed.

Lemma makedirs_dirs path w : dirs w ⊆ dirs (makedirs path w).
Proof. simpl. apply union_subseteq_r. Qed.

(** The directory of a log is the result directory of the model, when the
    category has no slash. *)
Lemma parent_of_file_to_write language model_name test_category :
  has_char "/" test_category = false →
  PyStr.before_last "/" (file_to_write language model_name test_category)
  = Some (result_dir language model_name).
Proof.
  intros Hc. unfold file_to_write.
  change ("/gorilla_openfunctions_v1_test_" +:+ test_category +:+ "_result.json")
    with (String "/" ("gorilla_openfunctions_v1_test_" +:+ test_category
                      +:+ "_result.json")).
  apply before_last_append, before_last_absent.
  by rewrite !has_char_append, Hc.
Qed.

Lemma open_append_log language model_name test_category line w :
  has_char "/" test_category = false →
  result_dir language model_name ∈ dirs w →
  open_append (file_to_write language model_name test_category) line w
  = (append_line (file_to_write language model_name test_category) line w, inr tt).
Proof.
  intros Hc Hdir. unfold open_append, parent_exists.
  rewrite parent_of_file_to_write by done.
  rewrite bool_decide_eq_true_2; [done | by right; right].
Qed.

(** The two ways [open_append] ends. *)
Lemma open_append_cases path line w :
  open_append path line w = (append_line path line w, inr tt)
  ∨ open_append path line w = (w, inl (FileNotFoundError path)).
Proof. unfold open_append. destruct (parent_exists path w); auto. Qed.





Lemma write_entries_trace model_name language entries w :
  trace (write_entries model_name language entries w).1 = trace w.
Proof.
  revert w. induction entries as [|entry rest IH]; intros w; simpl; [done|].
  destruct (entry_id entry) as [err|id]; simpl; [done|].
  destruct (open_append_cases
              (file_to_write language model_name (category_of_id id)) entry w)
    as [-> | ->]; [|done].
  by rewrite IH.
Qed.

Lemma write_trace model_name result language w :
  trace (write model_name result language w).1 = trace w.
Proof.
  unfold write. destruct result as [| | |[|c s]|l|kv]; try done;
    by rewrite write_entries_trace.
Qed.


(** [write] on one record whose id can be read: the result directory is
    made, then the log of the category of the id is opened. *)
Lemma write_record model_name language kv id w :
  entry_id (JDict kv) = inr id →
  write model_name (JDict kv) language w
  = open_append (file_to_write language model_name (category_of_id id)) (JDict kv)
      (makedirs (result_dir language model_name) w).
Proof.
  intros Hid. unfold write, write_entries. rewrite Hid.
  by destruct (open_append _ _ _) as [w' [err|[]]].
Qed.

(** The record of a case of a category without slash is always written. *)
Lemma write_record_log model_name language kv id w :
  entry_id (JDict kv) = inr id →
  has_char "/" (category_of_id id) = false →
  write model_name (JDict kv) language w
  = (append_line (file_to_write language model_name (category_of_id id)) (JDict kv)
       (makedirs (result_dir language model_name) w), inr tt).
Proof.
  intros Hid Hslash. rewrite (write_record _ _ _ id) by done.
  apply open_append_log; [done | apply makedirs_dir].
Qed.

End WorldFacts.

(** ** The checkpoint writer *)




(** ** The completed count *)

Lemma count_split (test_category : string) (lines : list json) :
  length lines =
  length (filter (λ entry, in_category test_category entry = true) lines)
  + length (filter (λ entry, in_category test_category entry ≠ true) lines).
Proof.
  induction lines as [|entry lines IH]; [done|].
  rewrite !filter_cons.
  destruct (decide (in_category test_category entry = true)) as [Hin|Hin];
    destruct (decide (in_category test_category entry ≠ true)) as [Hout|Hout];
    simpl; try lia; done.
Qed.

(** C3, counterexample: the log of "simple" holds one record, whose id
    prefix is "rest"; no record of the log matches the category, and the
    completed count is 1. *)
Lemma C3_foreign_record_is_counted :
  num_existing_result "en" "m" "gorilla_openfunctions_v1_test_simple.json"
    mixed_log_world = 1
  ∧ length (filter (λ entry, in_category "simple" entry = true)
              (default [] (files mixed_log_world
                 !! result_path "en" "m" "gorilla_openfunctions_v1_test_simple.json")))
    = 0.
Proof. split; vm_compute; reflexivity. Qed.

(** C3, amended: the completed count is the number of all lines of the log
    file, 0 when the file is absent; it is the sum of the records whose id
    prefix matches the category and of those whose id prefix does not. *)
Theorem C3_count_is_number_of_lines (language model_name file_to_open
    test_category : string) (w : World) :
  let lines :=
    default [] (files w !! result_path language model_name file_to_open) in
  num_existing_result language model_name file_to_open w = length lines
  ∧ length lines =
    length (filter (λ entry, in_category test_category entry = true) lines)
    + length (filter (λ entry, in_category test_category entry ≠ true) lines).
Proof.
  split.
  - unfold num_existing_result.
    by destruct (files w !! result_path language model_name file_to_open).
  - apply count_split.
Qed.

(** ** The retry loop *)

Section RetryLoop.
Context {H : Type} `{Handler H}.

Lemma retry_loop_step (h : H) w q f c n :
  retry_loop h w q f c n =
  if decide (n < RETRY_LIMIT) then
    match inference h q f c with
    | (h', inr (result, metadata)) =>
        (h', emit (EvInference q f c) w, Break result metadata)
    | (h', inl e) =>
        if is_transient e
        then retry_loop h' (emit (EvSleep RETRY_DELAY) (emit (EvInference q f c) w))
               q f c (n + 1)
        else (h', emit (EvInference q f c) w, Reraise e)
    end
  else (h, w, Exhausted).
Proof.
  simp retry_loop. destruct (decide (n < RETRY_LIMIT)); simpl; [|done].
  destruct (inference h q f c) as [h' [e|[r md]]]; simpl; [|done].
  by destruct (is_transient e).
Qed.

(** Induction along the iterations of the loop. *)
Lemma retry_loop_induction (q f : json) (c : string)
    (P : H → World → nat → H * World * LoopExit → Prop) :
  (∀ h w n, ¬ n < RETRY_LIMIT → P h w n (h, w, Exhausted)) →
  (∀ h w n h' r md, n < RETRY_LIMIT →
     inference h q f c = (h', inr (r, md)) →
     P h w n (h', emit (EvInference q f c) w, Break r md)) →
  (∀ h w n h' e, n < RETRY_LIMIT →
     inference h q f c = (h', inl e) → is_transient e = false →
     P h w n (h', emit (EvInference q f c) w, Reraise e)) →
  (∀ h w n h' e res, n < RETRY_LIMIT →
     inference h q f c = (h', inl e) → is_transient e = true →
     P h' (emit (EvSleep RETRY_DELAY) (emit (EvInference q f c) w)) (n + 1) res →
     P h w n res) →
  ∀ h w n, P h w n (retry_loop h w q f c n).
Proof.
  intros Hexh Hbrk Hfatal Hretry h w n.
  remember (RETRY_LIMIT - n) as k eqn:Hk.
  revert h w n Hk. induction k as [|k IH]; intros h w n Hk;
    rewrite retry_loop_step; destruct (decide (n < RETRY_LIMIT)) as [Hlt|Hge];
    try (by apply Hexh); try lia.
  destruct (inference h q f c) as [h' [e|[r md]]] eqn:Hinf.
  - destruct (is_transient e) eqn:Htr.
    + eapply Hretry; eauto. apply IH. lia.
    + by apply Hfatal.
  - by apply Hbrk.
Qed.

(** The loop only calls the adapter and sleeps; it leaves the file system
    alone, and it calls the adapter at least once when it is entered with
    retries left. *)
Lemma retry_loop_trace (h : H) w q f c n :
  ∃ evs,
    trace (retry_loop h w q f c n).1.2 = trace w ++ evs
    ∧ Forall (λ ev, ev = EvInference q f c ∨ ev = EvSleep RETRY_DELAY) evs
    ∧ (n < RETRY_LIMIT → ∃ rest, evs = EvInference q f c :: rest).
Proof.
  apply (retry_loop_induction q f c (λ h w n res,
    ∃ evs, trace res.1.2 = trace w ++ evs
           ∧ Forall (λ ev, ev = EvInference q f c ∨ ev = EvSleep RETRY_DELAY) evs
           ∧ (n < RETRY_LIMIT → ∃ rest, evs = EvInference q f c :: rest))).
  - intros h0 w0 n0 Hge. exists []. simpl. rewrite app_nil_r. by repeat split.
  - intros h0 w0 n0 h' r md Hlt Hinf. exists [EvInference q f c]. simpl.
    repeat split; [by constructor; auto | by eexists].
  - intros h0 w0 n0 h' e Hlt Hinf Htr. exists [EvInference q f c]. simpl.
    repeat split; [by constructor; auto | by eexists].
  - intros h0 w0 n0 h' e res Hlt Hinf Htr (evs & Htrace & Hall & _).
    exists (EvInference q f c :: EvSleep RETRY_DELAY :: evs).
    split; [|split].
    + rewrite Htrace. simpl. by rewrite <- !app_assoc.
    + by repeat constructor; auto.
    + by eexists.
Qed.

Lemma retry_loop_files (h : H) w q f c n :
  files (retry_loop h w q f c n).1.2 = files w
  ∧ data (retry_loop h w q f c n).1.2 = data w
  ∧ dirs (retry_loop h w q f c n).1.2 = dirs w.
Proof.
  apply (retry_loop_induction q f c (λ h w n res,
    files res.1.2 = files w ∧ data res.1.2 = data w ∧ dirs res.1.2 = dirs w));
    try done.
Qed.


End RetryLoop.



(** ** The interactive runner *)

Section InteractiveLoop.
Context {H : Type} `{Handler H}.

Lemma write_result_to_write model_name test_case result metadata language w :
  write model_name (result_to_write test_case result metadata) language w =
  open_append
    (file_to_write language model_name (category_of_id (tc_id test_case)))
    (result_to_write test_case result metadata)
    (makedirs (result_dir language model_name) w).
Proof. by apply write_record. Qed.

Lemma write_result_to_write_batch model_name test_case res language w :
  write model_name (result_to_write_batch test_case res) language w =
  open_append
    (file_to_write language model_name (category_of_id (tc_id test_case)))
    (result_to_write_batch test_case res)
    (makedirs (result_dir language model_name) w).
Proof. by apply write_record. Qed.

(** In the result directory just made, the log of a category without slash
    can be opened. *)
Lemma parent_exists_log language model_name test_category w :
  has_char "/" test_category = false →
  parent_exists (file_to_write language model_name test_category)
    (makedirs (result_dir language model_name) w) = true.
Proof.
  intros Hc. unfold parent_exists. rewrite parent_of_file_to_write by done.
  apply bool_decide_eq_true_2. right; right. apply makedirs_dir.
Qed.

(** One iteration of the [for] loop, by the way the retry loop ended and by
    whether the log could be opened. *)
Lemma interactive_loop_cons args model_name (h : H) bound test_case rest w :
  interactive_loop args model_name h bound (test_case :: rest) w =
  match retry_loop h w (tc_question test_case)
          (normalize_functions (tc_function test_case))
          (category_of_id (tc_id test_case)) 0 with
  | (h', w', Reraise e) => (w', inl (AdapterError e))
  | (h', w', exit) =>
      match match exit with
            | Break result metadata => Some (result, metadata)
            | _ => bound
            end with
      | None => (w', inl (UnboundLocalError "result"))
      | Some (result, metadata) =>
          let path := file_to_write (language args) model_name
                        (category_of_id (tc_id test_case)) in
          let w1 := makedirs (result_dir (language args) model_name) w' in
          if parent_exists path w1
          then interactive_loop args model_name h' (Some (result, metadata)) rest
                 (append_line path (result_to_write test_case result metadata) w1)
          else (w1, inl (FileNotFoundError path))
      end
  end.
Proof.
  cbn [interactive_loop].
  destruct (retry_loop _ _ _ _ _ _) as [[h' w'] [r md| |e]]; [| |done].
  - rewrite write_result_to_write. unfold open_append.
    by destruct (parent_exists _ _).
  - destruct bound as [[r md]|]; [|done].
    rewrite write_result_to_write. unfold open_append.
    by destruct (parent_exists _ _).
Qed.

(** Induction along the iterations of the [for] loop. *)
Lemma interactive_loop_induction args model_name
    (P : H → option (json * Metadata) → list TestCase → World →
         World * Result unit → Prop) :
  (∀ h bound w, P h bound [] w (w, inr tt)) →
  (∀ h bound test_case rest w h' w' e,
     retry_loop h w (tc_question test_case)
       (normalize_functions (tc_function test_case))
       (category_of_id (tc_id test_case)) 0 = (h', w', Reraise e) →
     P h bound (test_case :: rest) w (w', inl (AdapterError e))) →
  (∀ h test_case rest w h' w',
     retry_loop h w (tc_question test_case)
       (normalize_functions (tc_function test_case))
       (category_of_id (tc_id test_case)) 0 = (h', w', Exhausted) →
     P h None (test_case :: rest) w (w', inl (UnboundLocalError "result"))) →
  (∀ h bound test_case rest w h' w' exit result metadata res,
     retry_loop h w (tc_question test_case)
       (normalize_functions (tc_function test_case))
       (category_of_id (tc_id test_case)) 0 = (h', w', exit) →
     exit = Break result metadata
     ∨ (exit = Exhausted ∧ bound = Some (result, metadata)) →
     parent_exists
       (file_to_write (language args) model_name (category_of_id (tc_id test_case)))
       (makedirs (result_dir (language args) model_name) w') = true →
     P h' (Some (result, metadata)) rest
       (append_line
          (file_to_write (language args) model_name
             (category_of_id (tc_id test_case)))
          (result_to_write test_case result metadata)
          (makedirs (result_dir (language args) model_name) w')) res →
     P h bound (test_case :: rest) w res) →
  (∀ h bound test_case rest w h' w' exit result metadata,
     retry_loop h w (tc_question test_case)
       (normalize_functions (tc_function test_case))
       (category_of_id (tc_id test_case)) 0 = (h', w', exit) →
     exit = Break result metadata
     ∨ (exit = Exhausted ∧ bound = Some (result, metadata)) →
     parent_exists
       (file_to_write (language args) model_name (category_of_id (tc_id test_case)))
       (makedirs (result_dir (language args) model_name) w') = false →
     P h bound (test_case :: rest) w
       (makedirs (result_dir (language args) model_name) w',
        inl (FileNotFoundError
               (file_to_write (language args) model_name
                  (category_of_id (tc_id test_case)))))) →
  ∀ h bound test_cases w,
    P h bound test_cases w (interactive_loop args model_name h bound test_cases w).
Proof.
  intros Hnil Hreraise Hunbound Hnext Hmissing h bound test_cases.
  revert h bound. induction test_cases as [|test_case rest IH]; intros h bound w.
  { apply Hnil. }
  rewrite interactive_loop_cons.
  destruct (retry_loop h w (tc_question test_case)
              (normalize_functions (tc_function test_case))
              (category_of_id (tc_id test_case)) 0)
    as [[h' w'] exit] eqn:Hloop.
  destruct exit as [r md| |e].
  - cbn zeta.
    destruct (parent_exists _ _) eqn:Hparent.
    + eapply Hnext; [exact Hloop | by left | exact Hparent | apply IH].
    + eapply Hmissing; [exact Hloop | by left | exact Hparent].
  - destruct bound as [[r md]|]; [|by eapply Hunbound].
    cbn zeta. destruct (parent_exists _ _) eqn:Hparent.
    + eapply Hnext; [exact Hloop | by right | exact Hparent | apply IH].
    + eapply Hmissing; [exact Hloop | by right | exact Hparent].
  - by eapply Hreraise.
Qed.

(** When the retry loop is left because the retries are used up, no
    exception is raised: the runner goes on to write a record from the
    locals [result] and [metadata], which hold the answer to an earlier case
    if there was one and are unbound otherwise. *)
Lemma interactive_loop_exhausted args model_name (h h' : H) bound test_case rest
    w w' :
  retry_loop h w (tc_question test_case)
    (normalize_functions (tc_function test_case))
    (category_of_id (tc_id test_case)) 0 = (h', w', Exhausted) →
  has_char "/" (category_of_id (tc_id test_case)) = false →
  interactive_loop args model_name h bound (test_case :: rest) w =
  match bound with
  | None => (w', inl (UnboundLocalError "result"))
  | Some (result, metadata) =>
      interactive_loop args model_name h' bound rest
        (append_line
           (file_to_write (language args) model_name (category_of_id (tc_id test_case)))
           (result_to_write test_case result metadata)
           (makedirs (result_dir (language args) model_name) w'))
  end.
Proof.
  intros Hloop Hslash. rewrite interactive_loop_cons, Hloop.
  destruct bound as [[r md]|]; [|done]. cbn zeta.
  by rewrite parent_exists_log.
Qed.

(** The events of a run of the loop, case by case: the cases processed
    are the first cases of the list, each one gives a block of events that
    starts with the call for this case, and all the cases are processed when
    the loop ends normally. *)
Lemma interactive_loop_blocks args model_name (h : H) bound test_cases w :
  ∃ (processed : list TestCase) (blocks : list (list Event)),
    processed `prefix_of` test_cases
    ∧ Forall2 case_events processed blocks
    ∧ trace (interactive_loop args model_name h bound test_cases w).1
      = trace w ++ concat blocks
    ∧ match (interactive_loop args model_name h bound test_cases w).2 with
      | inr _ => processed = test_cases
      | inl _ => processed ≠ []
      end.
Proof.
  apply (interactive_loop_induction args model_name (λ h bound test_cases w res,
    ∃ (processed : list TestCase) (blocks : list (list Event)),
      processed `prefix_of` test_cases
      ∧ Forall2 case_events processed blocks
      ∧ trace res.1 = trace w ++ concat blocks
      ∧ match res.2 with
        | inr _ => processed = test_cases
        | inl _ => processed ≠ []
        end)).
  - intros h0 b w0. exists [], []. simpl. rewrite app_nil_r.
    by repeat split; try constructor.
  - intros h0 b tc rest w0 h' w' e Hloop.
    destruct (retry_loop_trace h0 w0 (tc_question tc)
                (normalize_functions (tc_function tc))
                (category_of_id (tc_id tc)) 0) as (evs & Htrace & Hall & Hfirst).
    rewrite Hloop in Htrace. simpl in Htrace.
    destruct Hfirst as [more ->]; [unfold RETRY_LIMIT; lia|].
    exists [tc], [call_of tc :: more]. simpl. rewrite app_nil_r.
    split; [by apply prefix_cons, prefix_nil|].
    split; [|done]. constructor; [|constructor].
    exists more. split; [done|]. by apply Forall_cons in Hall as [_ Hall].
  - intros h0 tc rest w0 h' w' Hloop.
    destruct (retry_loop_trace h0 w0 (tc_question tc)
                (normalize_functions (tc_function tc))
                (category_of_id (tc_id tc)) 0) as (evs & Htrace & Hall & Hfirst).
    rewrite Hloop in Htrace. simpl in Htrace.
    destruct Hfirst as [more ->]; [unfold RETRY_LIMIT; lia|].
    exists [tc], [call_of tc :: more]. simpl. rewrite app_nil_r.
    split; [by apply prefix_cons, prefix_nil|].
    split; [|done]. constructor; [|constructor].
    exists more. split; [done|]. by apply Forall_cons in Hall as [_ Hall].
  - intros h0 b tc rest w0 h' w' exit r md res Hloop _ _
      (processed & blocks & Hpre & Hblocks & Htr & Hend).
    destruct (retry_loop_trace h0 w0 (tc_question tc)
                (normalize_functions (tc_function tc))
                (category_of_id (tc_id tc)) 0) as (evs & Htrace & Hall & Hfirst).
    rewrite Hloop in Htrace. simpl in Htrace.
    destruct Hfirst as [more ->]; [unfold RETRY_LIMIT; lia|].
    exists (tc :: processed), ((call_of tc :: more) :: blocks).
    split; [by apply prefix_cons|]. split; [|split].
    + constructor; [|done]. exists more. split; [done|].
      by apply Forall_cons in Hall as [_ Hall].
    + rewrite Htr. simpl. rewrite Htrace. by rewrite <- !app_assoc.
    + destruct res.2; [done|]. by rewrite Hend.
  - intros h0 b tc rest w0 h' w' exit r md Hloop _ _.
    destruct (retry_loop_trace h0 w0 (tc_question tc)
                (normalize_functions (tc_function tc))
                (category_of_id (tc_id tc)) 0) as (evs & Htrace & Hall & Hfirst).
    rewrite Hloop in Htrace. simpl in Htrace.
    destruct Hfirst as [more ->]; [unfold RETRY_LIMIT; lia|].
    exists [tc], [call_of tc :: more]. simpl. rewrite app_nil_r.
    split; [by apply prefix_cons, prefix_nil|].
    split; [|done]. constructor; [|constructor].
    exists more. split; [done|]. by apply Forall_cons in Hall as [_ Hall].
Qed.

(** Every call the runner makes to the adapter carries the question, the
    normalized functions and the category of one of the test cases. *)
Lemma interactive_loop_trace args model_name (h : H) bound test_cases w :
  ∃ evs,
    trace (interactive_loop args model_name h bound test_cases w).1 = trace w ++ evs
    ∧ Forall (λ ev,
        ev = EvSleep RETRY_DELAY
        ∨ ∃ test_case, test_case ∈ test_cases
            ∧ ev = EvInference (tc_question test_case)
                     (normalize_functions (tc_function test_case))
                     (category_of_id (tc_id test_case))) evs.
Proof.
  destruct (interactive_loop_blocks args model_name h bound test_cases w)
    as (processed & blocks & [later ->] & Hblocks & Htrace & _).
  exists (concat blocks). split; [done|].
  apply Forall_concat. clear Htrace.
  induction Hblocks as [|tc block processed blocks (more & -> & Hmore) _ IH];
    [constructor|].
  constructor.
  - constructor.
    + right. exists tc. split; [apply list_elem_of_here | done].
    + eapply Forall_impl; [exact Hmore|]. intros ev [->| ->]; [right|by left].
      exists tc. split; [apply list_elem_of_here | done].
  - eapply Forall_impl; [exact IH|]. intros block Hblock.
    eapply Forall_impl; [exact Hblock|]. intros ev [->|(tc' & Hin & ->)];
      [by left|]. right. exists tc'. split; [|done].
    by apply list_elem_of_further.
Qed.

End InteractiveLoop.

(** C6: a function field that is a dict or a string reaches the adapter as
    a one-element list, a list reaches it unchanged.  The events of the
    interactive runner split into one block per processed case, in the
    order of the list: the block of a case starts with the adapter call that
    carries the question, the category and the normalized function field of
    this very case, and holds nothing but such calls and sleeps.  The
    processed cases are all the cases when the runner ends normally, and at
    least the first one when it ends with an exception. *)
Theorem C6_functions_are_normalized {H : Type} `{Handler H} (args : Args)
    (model_name : string) (h : H) (bound : option (json * Metadata))
    (test_cases : list TestCase) (w : World) :
  (∀ kv, normalize_functions (JDict kv) = JList [JDict kv])
  ∧ (∀ s, normalize_functions (JStr s) = JList [JStr s])
  ∧ (∀ l, normalize_functions (JList l) = JList l)
  ∧ ∃ (processed : list TestCase) (blocks : list (list Event)),
      processed `prefix_of` test_cases
      ∧ Forall2 (λ test_case block,
          ∃ rest,
            block = EvInference (tc_question test_case)
                      (normalize_functions (tc_function test_case))
                      (category_of_id (tc_id test_case)) :: rest
            ∧ Forall (λ ev,
                ev = EvInference (tc_question test_case)
                       (normalize_functions (tc_function test_case))
                       (category_of_id (tc_id test_case))
                ∨ ev = EvSleep RETRY_DELAY) rest) processed blocks
      ∧ trace (interactive_loop args model_name h bound test_cases w).1
        = trace w ++ concat blocks
      ∧ match (interactive_loop args model_name h bound test_cases w).2 with
        | inr _ => processed = test_cases
        | inl _ => processed ≠ []
        end.
Proof.
  repeat split. apply interactive_loop_blocks.
Qed.

(** C1, the failing run: the adapter answers "simple_0" and then raises a
    rate-limit error on each of the three attempts for "simple_1".  The run
    ends without an exception, and a record for "simple_1" is written that
    carries the result of "simple_0". *)
Theorem C1_exhausted_retries_write_a_stale_record :
  let answer := (JStr "circle_area(radius=2)", usage 7) in
  let h := interactive_script
             [inr answer; inl rate_limited; inl rate_limited; inl rate_limited] in
  let args := {| model := ["m"]; test_category := ["simple"]; language := "en" |} in
  let run := generate_results {[ "m" := (InteractiveStyle, h) ]} args "m"
               [simple_case "0"; simple_case "1"] empty_world in
  run.2 = inr tt
  ∧ files run.1 !! "./result/en/m/gorilla_openfunctions_v1_test_simple_result.json"
    = Some [result_to_write (simple_case "0") answer.1 answer.2;
            result_to_write (simple_case "1") answer.1 answer.2].
Proof. vm_compute. split; reflexivity. Qed.

(** C2, the failing run: the adapter answers "simple_0", raises a
    rate-limit error on each of the three attempts for "simple_1", and
    answers "simple_2".  The failure of "simple_1" does not end the run: the
    runner goes on to call the adapter for "simple_2", records the three
    cases and ends without an exception. *)
Theorem C2_exhausted_retries_do_not_abort_the_run :
  let h := interactive_script
             [inr (JStr "circle_area(radius=2)", usage 7);
              inl rate_limited; inl rate_limited; inl rate_limited;
              inr (JStr "circle_area(radius=4)", usage 9)] in
  let args := {| model := ["m"]; test_category := ["simple"]; language := "en" |} in
  let run := generate_results {[ "m" := (InteractiveStyle, h) ]} args "m"
               [simple_case "0"; simple_case "1"; simple_case "2"] empty_world in
  run.2 = inr tt
  ∧ recorded_id <$> log_of "en" "m" "simple" run.1
    = [Some "simple_0"; Some "simple_1"; Some "simple_2"]
  ∧ count_calls (trace run.1) = 5
  ∧ last (trace run.1) = Some (call_of (simple_case "2")).
Proof. vm_compute. repeat split; reflexivity. Qed.

(** ** The batch-native runner *)

Section BatchLoop.


End BatchLoop.




(** ** Category resolution *)

Section ParseTestCategory.
Variable TEST_COLLECTION_MAPPING : gmap string (list string).

Lemma add_test_name_inr test_name acc acc' :
  add_test_name test_name acc = inr acc' →
  ∃ filename, TEST_FILE_MAPPING !! test_name = Some filename
    ∧ acc'.1 = {[test_name]} ∪ acc.1 ∧ acc'.2 = {[filename]} ∪ acc.2.
Proof.
  unfold add_test_name. destruct (TEST_FILE_MAPPING !! test_name) as [f|]; [|done].
  intros [= <-]. by exists f.
Qed.

Lemma add_test_names_inr test_names acc acc' :
  add_test_names test_names acc = inr acc' →
  (∀ n, n ∈ acc'.1 ↔ n ∈ acc.1 ∨ n ∈ test_names)
  ∧ (∀ f, f ∈ acc'.2 ↔
       f ∈ acc.2 ∨ ∃ n, n ∈ test_names ∧ TEST_FILE_MAPPING !! n = Some f).
Proof.
  revert acc. induction test_names as [|name rest IH]; intros acc; simpl.
  - intros [= <-]. split; intros x; split; auto.
    + intros [?|Hx]; [done|]. by apply elem_of_nil in Hx.
    + intros [?|(n & Hn & _)]; [done|]. by apply elem_of_nil in Hn.
  - destruct (add_test_name name acc) as [err|acc1] eqn:Hadd; [done|].
    apply add_test_name_inr in Hadd as (f1 & Hf1 & Hn1 & Hfs1).
    intros Hrest. apply IH in Hrest as [Hnames Hfiles]. split.
    + intros n. rewrite Hnames, Hn1, elem_of_union, elem_of_singleton, elem_of_cons.
      tauto.
    + intros f. rewrite Hfiles, Hfs1, elem_of_union, elem_of_singleton. split.
      * intros [[->|?]|(n & Hn & Hf)]; [right|by left|right].
        -- exists name. split; [apply list_elem_of_here | done].
        -- exists n. split; [by apply list_elem_of_further | done].
      * intros [?|(n & Hn & Hf)]; [by left; right|].
        apply elem_of_cons in Hn as [->|Hn].
        -- left. left. congruence.
        -- right. by exists n.
Qed.

Lemma parse_loop_inr test_category_args acc acc' :
  parse_loop TEST_COLLECTION_MAPPING test_category_args acc = inr acc' →
  (∀ n, n ∈ acc'.1 ↔
     n ∈ acc.1 ∨ ∃ token, token ∈ test_category_args
                  ∧ n ∈ expand_category TEST_COLLECTION_MAPPING token)
  ∧ (∀ f, f ∈ acc'.2 ↔
       f ∈ acc.2 ∨ ∃ token n, token ∈ test_category_args
                    ∧ n ∈ expand_category TEST_COLLECTION_MAPPING token
                    ∧ TEST_FILE_MAPPING !! n = Some f).
Proof.
  revert acc. induction test_category_args as [|token rest IH]; intros acc; simpl.
  - intros [= <-]. split; intros x; split; auto.
    + intros [?|(t & Ht & _)]; [done|]. by apply elem_of_nil in Ht.
    + intros [?|(t & n & Ht & _)]; [done|]. by apply elem_of_nil in Ht.
  - assert (∃ r, r = add_test_names
              (expand_category TEST_COLLECTION_MAPPING token) acc
            ∧ match TEST_COLLECTION_MAPPING !! token with
              | Some test_names => add_test_names test_names acc
              | None => add_test_name token acc
              end = r) as (r & Hr & ->).
    { eexists. split; [reflexivity|]. unfold expand_category.
      destruct (TEST_COLLECTION_MAPPING !! token); simpl; [done|].
      by destruct (add_test_name token acc). }
    destruct r as [err|acc1]; [done|]. symmetry in Hr.
    apply add_test_names_inr in Hr as [Hn1 Hf1].
    intros Hrest. apply IH in Hrest as [Hnames Hfiles]. split.
    + intros n. rewrite Hnames, Hn1. split.
      * intros [[?|Hn]|(t & Ht & Hn)]; [by left|right|right].
        -- exists token. split; [apply list_elem_of_here | done].
        -- exists t. split; [by apply list_elem_of_further | done].
      * intros [?|(t & Ht & Hn)]; [by left; left|].
        apply elem_of_cons in Ht as [->|Ht]; [by left; right|].
        right. by exists t.
    + intros f. rewrite Hfiles, Hf1. split.
      * intros [[?|(n & Hn & Hf)]|(t & n & Ht & Hn & Hf)]; [by left|right|right].
        -- exists token, n. split; [apply list_elem_of_here | done].
        -- exists t, n. split; [by apply list_elem_of_further | done].
      * intros [?|(t & n & Ht & Hn & Hf)]; [by left; left|].
        apply elem_of_cons in Ht as [->|Ht]; [left; right; by exists n|].
        right. by exists t, n.
Qed.

(** The parser answers whenever every requested leaf category has a data
    file. *)
Lemma add_test_names_total test_names acc :
  Forall (λ n, is_Some (TEST_FILE_MAPPING !! n)) test_names →
  ∃ acc', add_test_names test_names acc = inr acc'.
Proof.
  intros Hall. revert acc. induction Hall as [|n rest [f Hf] _ IH]; intros acc.
  - by eexists.
  - simpl. unfold add_test_name. rewrite Hf. apply IH.
Qed.

Lemma parse_test_category_argument_total test_category_args :
  Forall (λ token, Forall (λ n, is_Some (TEST_FILE_MAPPING !! n))
                     (expand_category TEST_COLLECTION_MAPPING token))
         test_category_args →
  ∃ names filenames,
    parse_test_category_argument TEST_COLLECTION_MAPPING test_category_args
    = inr (names, filenames).
Proof.
  intros Hall. unfold parse_test_category_argument.
  assert (∀ acc, ∃ acc',
    parse_loop TEST_COLLECTION_MAPPING test_category_args acc = inr acc')
    as Hloop.
  { induction Hall as [|token rest Htoken _ IH]; intros acc; [by eexists|].
    simpl. unfold expand_category in Htoken.
    destruct (TEST_COLLECTION_MAPPING !! token) as [names|]; simpl in Htoken.
    - destruct (add_test_names_total names acc Htoken) as [acc1 ->]. apply IH.
    - destruct (add_test_names_total [token] acc Htoken) as [acc1 Hacc1].
      simpl in Hacc1. destruct (add_test_name token acc) as [e|acc2]; [done|].
      apply IH. }
  destruct (Hloop (∅, ∅)) as [acc' ->]. by eexists _, _.
Qed.

End ParseTestCategory.

Lemma parse_test_category_argument_inr
    (TEST_COLLECTION_MAPPING : gmap string (list string))
    (test_category_args test_name_total test_filename_total : list string) :
  parse_test_category_argument TEST_COLLECTION_MAPPING test_category_args
  = inr (test_name_total, test_filename_total) →
  NoDup test_name_total
  ∧ NoDup test_filename_total
  ∧ (∀ test_name, test_name ∈ test_name_total ↔
       ∃ token, token ∈ test_category_args
         ∧ test_name ∈ expand_category TEST_COLLECTION_MAPPING token)
  ∧ (∀ filename, filename ∈ test_filename_total ↔
       ∃ test_name, test_name ∈ test_name_total
         ∧ TEST_FILE_MAPPING !! test_name = Some filename).
Proof.
  intros Hparse.
  unfold parse_test_category_argument in Hparse.
  destruct (parse_loop TEST_COLLECTION_MAPPING test_category_args (∅, ∅))
    as [err|acc] eqn:Hloop; [done|].
  injection Hparse as <- <-.
  apply parse_loop_inr in Hloop as [Hnames Hfiles].
  assert (∀ test_name, test_name ∈ elements acc.1 ↔
       ∃ token, token ∈ test_category_args
         ∧ test_name ∈ expand_category TEST_COLLECTION_MAPPING token) as Hn.
  { intros n. rewrite elem_of_elements, Hnames. split; [|by right].
    intros [Hempty|?]; [|done]. by apply not_elem_of_empty in Hempty. }
  split; [apply NoDup_elements|]. split; [apply NoDup_elements|].
  split; [done|].
  intros f. rewrite elem_of_elements, Hfiles. split.
  - intros [Hempty|(t & n & Ht & Hexp & Hf)]; [by apply not_elem_of_empty in Hempty|].
    exists n. split; [|done]. apply Hn. by exists t.
  - intros (n & Hin & Hf). apply Hn in Hin as (t & Ht & Hexp). right. by exists t, n.
Qed.

(** C7: the requested tokens are resolved to the union of their
    expansions.  The list of leaf categories and the list of data files
    hold no duplicates; a leaf category is listed exactly when one of the
    tokens expands to it, and a data file exactly when it is the file of a
    listed category. *)
Theorem C7_alias_expansion_is_a_set_union
    (TEST_COLLECTION_MAPPING : gmap string (list string))
    (test_category_args test_name_total test_filename_total : list string)
    (Hparse : parse_test_category_argument TEST_COLLECTION_MAPPING
                test_category_args
              = inr (test_name_total, test_filename_total)) :
  NoDup test_name_total
  ∧ NoDup test_filename_total
  ∧ (∀ test_name, test_name ∈ test_name_total ↔
       ∃ token, token ∈ test_category_args
         ∧ test_name ∈ expand_category TEST_COLLECTION_MAPPING token)
  ∧ (∀ filename, filename ∈ test_filename_total ↔
       ∃ test_name, test_name ∈ test_name_total
         ∧ TEST_FILE_MAPPING !! test_name = Some filename).
Proof. by apply parse_test_category_argument_inr. Qed.

Lemma C7_alias_expansion_is_a_set_union_witness :
  let aliases : gmap string (list string) :=
    {[ "ast" := ["simple"; "relevance"];
       "basic" := ["simple"; "rest"] ]} in
  ∃ names filenames,
    parse_test_category_argument aliases ["ast"; "basic"; "simple"]
    = inr (names, filenames)
    ∧ length names = 3 ∧ NoDup names ∧ NoDup filenames.
Proof.
  intros aliases.
  destruct (parse_test_category_argument aliases ["ast"; "basic"; "simple"])
    as [err|[names filenames]] eqn:Hparse; [vm_compute in Hparse; discriminate|].
  exists names, filenames.
  destruct (C7_alias_expansion_is_a_set_union aliases
              ["ast"; "basic"; "simple"] names filenames Hparse)
    as (Hnd_names & Hnd_files & _).
  split; [reflexivity|]. split; [|split; assumption].
  vm_compute in Hparse. injection Hparse as <- <-. reflexivity.
Defined.

(** ** Selection of the pending cases *)

Section CollectTestCases.

Lemma collect_loop_present language filenames model_name w acc :
  Forall (λ f, is_Some (data w !! data_path language f)) filenames →
  collect_loop language filenames model_name w acc =
  inr (acc ++ concat (pending_of language model_name w <$> filenames)).
Proof.
  intros Hall. revert acc.
  induction Hall as [|f rest [test_cases Hf] _ IH]; intros acc; simpl.
  - by rewrite app_nil_r.
  - rewrite Hf, IH. unfold pending_of. rewrite Hf. simpl. by rewrite app_assoc.
Qed.

Lemma collect_loop_inr language filenames model_name w acc pending :
  collect_loop language filenames model_name w acc = inr pending →
  Forall (λ f, is_Some (data w !! data_path language f)) filenames.
Proof.
  revert acc. induction filenames as [|f rest IH]; intros acc; simpl; [done|].
  destruct (data w !! data_path language f) as [test_cases|] eqn:Hf; [|done].
  intros Hrest. constructor; [by eexists | by eapply IH].
Qed.

Lemma collect_test_cases_inr language filenames model_name w pending :
  collect_test_cases language filenames model_name w = inr pending →
  Forall (λ f, is_Some (data w !! data_path language f)) filenames
  ∧ pending = concat (pending_of language model_name w <$> filenames).
Proof.
  intros Hc. pose proof (collect_loop_inr _ _ _ _ _ _ Hc) as Hall.
  split; [done|]. unfold collect_test_cases in Hc.
  rewrite (collect_loop_present _ _ _ _ _ Hall) in Hc. by injection Hc as <-.
Qed.

End CollectTestCases.

(** C5: when the data files of the requested categories exist, the selector
    returns, file after file, the cases of each file without its first [c]
    ones, [c] being the number of records in the log of that file for the
    model; the cases kept are the last [n - c] ones of the file in the order
    of the file.  With the cases simple_0, simple_1, simple_2 and one
    recorded result it returns simple_1 and simple_2. *)
Theorem C5_selector_skips_the_recorded_prefix (language model_name : string)
    (test_filename_total : list string) (w : World)
    (Hdata : Forall (λ f, is_Some (data w !! data_path language f))
               test_filename_total) :
  collect_test_cases language test_filename_total model_name w =
    inr (concat (pending_of language model_name w <$> test_filename_total))
  ∧ (∀ file_to_open test_cases,
       data w !! data_path language file_to_open = Some test_cases →
       let c := length (default []
                  (files w !! result_path language model_name file_to_open)) in
       pending_of language model_name w file_to_open = drop c test_cases
       ∧ length (pending_of language model_name w file_to_open)
         = length test_cases - c
       ∧ take c test_cases ++ pending_of language model_name w file_to_open
         = test_cases)
  ∧ collect_test_cases "en" ["gorilla_openfunctions_v1_test_simple.json"] "m"
      resumed_world
    = inr [simple_case "1"; simple_case "2"].
Proof.
  split; [|split].
  - unfold collect_test_cases. by rewrite collect_loop_present.
  - intros f test_cases Hf c.
    assert (pending_of language model_name w f = drop c test_cases) as ->.
    { unfold pending_of, num_existing_result. rewrite Hf. subst c. simpl.
      by destruct (files w !! result_path language model_name f). }
    split; [done|]. split; [apply length_drop | apply take_drop].
  - vm_compute. reflexivity.
Qed.

Lemma C5_selector_skips_the_recorded_prefix_witness :
  collect_test_cases "en" ["gorilla_openfunctions_v1_test_simple.json"] "m"
    resumed_world
  = inr (concat (pending_of "en" "m" resumed_world
                   <$> ["gorilla_openfunctions_v1_test_simple.json"]))
  ∧ pending_of "en" "m" resumed_world "gorilla_openfunctions_v1_test_simple.json"
    = [simple_case "1"; simple_case "2"].
Proof.
  split.
  - apply (C5_selector_skips_the_recorded_prefix "en" "m"
             ["gorilla_openfunctions_v1_test_simple.json"] resumed_world).
    apply Forall_singleton. vm_compute. eexists; reflexivity.
  - vm_compute. reflexivity.
Defined.

(** ** What a run writes *)

Section Written.
Context {H : Type} `{Handler H}.

Lemma files_append_line_record language model_name test_case entry w :
  files (append_line
           (file_to_write language model_name (category_of_id (tc_id test_case)))
           entry (makedirs (result_dir language model_name) w))
  = append_record language model_name (files w) (test_case, entry).
Proof. done. Qed.

(** The interactive runner writes one record for each case of a prefix of
    its list, in order and under the id of the case; it writes a record
    for every case when it ends without an exception. *)
Lemma interactive_loop_written args model_name (h : H) bound test_cases w :
  ∃ written : list (TestCase * json),
    written.*1 `prefix_of` test_cases
    ∧ Forall (λ p, recorded_id p.2 = Some (tc_id p.1)) written
    ∧ files (interactive_loop args model_name h bound test_cases w).1
      = foldl (append_record (language args) model_name) (files w) written
    ∧ data (interactive_loop args model_name h bound test_cases w).1 = data w
    ∧ ((interactive_loop args model_name h bound test_cases w).2 = inr tt →
       written.*1 = test_cases).
Proof.
  apply (interactive_loop_induction args model_name (λ h bound test_cases w res,
    ∃ written : list (TestCase * json),
      written.*1 `prefix_of` test_cases
      ∧ Forall (λ p, recorded_id p.2 = Some (tc_id p.1)) written
      ∧ files res.1
        = foldl (append_record (language args) model_name) (files w) written
      ∧ data res.1 = data w
      ∧ (res.2 = inr tt → written.*1 = test_cases))).
  - intros h0 b w0. exists []. by repeat split.
  - intros h0 b tc rest w0 h' w' e Hloop.
    destruct (retry_loop_files h0 w0 (tc_question tc)
                (normalize_functions (tc_function tc))
                (category_of_id (tc_id tc)) 0) as (Hf & Hd & _).
    rewrite Hloop in Hf, Hd. exists []. split; [apply prefix_nil|].
    by repeat split.
  - intros h0 tc rest w0 h' w' Hloop.
    destruct (retry_loop_files h0 w0 (tc_question tc)
                (normalize_functions (tc_function tc))
                (category_of_id (tc_id tc)) 0) as (Hf & Hd & _).
    rewrite Hloop in Hf, Hd. exists []. split; [apply prefix_nil|].
    by repeat split.
  - intros h0 b tc rest w0 h' w' exit r md res Hloop _ _
      (written & Hpre & Hids & Hfs & Hdt & Hall).
    destruct (retry_loop_files h0 w0 (tc_question tc)
                (normalize_functions (tc_function tc))
                (category_of_id (tc_id tc)) 0) as (Hf & Hd & _).
    rewrite Hloop in Hf, Hd. simpl in Hf, Hd.
    exists ((tc, result_to_write tc r md) :: written).
    split; [by apply prefix_cons|]. split; [by constructor|].
    split; [|split].
    + rewrite Hfs, files_append_line_record, Hf. done.
    + rewrite Hdt. simpl. done.
    + intros Hok. simpl. f_equal. by apply Hall.
  - intros h0 b tc rest w0 h' w' exit r md Hloop _ _.
    destruct (retry_loop_files h0 w0 (tc_question tc)
                (normalize_functions (tc_function tc))
                (category_of_id (tc_id tc)) 0) as (Hf & Hd & _).
    rewrite Hloop in Hf, Hd. exists []. split; [apply prefix_nil|].
    by repeat split.
Qed.

Lemma zip_fst_prefix {A B} (l : list A) (k : list B) :
  (zip l k).*1 `prefix_of` l.
Proof.
  revert k. induction l as [|x l IH]; intros [|y k]; simpl;
    try apply prefix_nil.
  apply prefix_cons, IH.
Qed.

(** The batch loop writes the records of the first pairs: of all the pairs
    when it ends without an exception. *)
Lemma batch_loop_written args model_name pairs w :
  ∃ done : list (TestCase * json),
    done `prefix_of` pairs
    ∧ files (batch_loop args model_name pairs w).1
      = foldl (append_record (language args) model_name) (files w)
          ((λ p, (p.1, result_to_write_batch p.1 p.2)) <$> done)
    ∧ data (batch_loop args model_name pairs w).1 = data w
    ∧ trace (batch_loop args model_name pairs w).1 = trace w
    ∧ ((batch_loop args model_name pairs w).2 = inr tt → done = pairs)
    ∧ (Forall (λ p, has_char "/" (category_of_id (tc_id p.1)) = false) pairs →
       (batch_loop args model_name pairs w).2 = inr tt).
Proof.
  revert w. induction pairs as [|[test_case res] rest IH]; intros w.
  { exists []. by repeat split. }
  cbn [batch_loop]. rewrite write_result_to_write_batch. unfold open_append.
  destruct (parent_exists _ _) eqn:Hparent.
  - destruct (IH (append_line
        (file_to_write (language args) model_name (category_of_id (tc_id test_case)))
        (result_to_write_batch test_case res)
        (makedirs (result_dir (language args) model_name) w)))
      as (done & Hpre & Hfiles & Hdata & Htrace & Hall & Hplain).
    exists ((test_case, res) :: done).
    split; [by apply prefix_cons|]. split; [exact Hfiles|].
    split; [exact Hdata|]. split; [exact Htrace|]. split.
    + intros Hok. f_equal. by apply Hall.
    + intros Hp. apply Hplain. by apply Forall_cons in Hp as [_ Hp].
  - exists []. split; [apply prefix_nil|]. repeat split; try done.
    intros Hp. apply Forall_cons in Hp as [Hp _]. simpl in Hp.
    by rewrite parent_exists_log in Hparent.
Qed.

(** Either runner writes records for a prefix of the pending cases. *)
Lemma generate_results_written handler_map args model_name test_cases w :
  ∃ written : list (TestCase * json),
    written.*1 `prefix_of` test_cases
    ∧ Forall (λ p, recorded_id p.2 = Some (tc_id p.1)) written
    ∧ files (generate_results handler_map args model_name test_cases w).1
      = foldl (append_record (language args) model_name) (files w) written
    ∧ data (generate_results handler_map args model_name test_cases w).1 = data w
    ∧ (batch_answers_all handler_map →
       (generate_results handler_map args model_name test_cases w).2 = inr tt →
       written.*1 = test_cases).
Proof.
  unfold generate_results.
  destruct (handler_map !! model_name) as [[model_style h]|] eqn:Hh.
  2: { exists []. split; [apply prefix_nil|]. by repeat split. }
  destruct (decide (model_style = OSSMODEL)) as [->|Hstyle].
  - destruct (inference_batch h test_cases) as [h' [e|[result metadata]]] eqn:Hb.
    { exists []. split; [apply prefix_nil|]. by repeat split. }
    destruct (batch_loop_written args model_name (zip test_cases result)
                (emit (EvInferenceBatch test_cases) w))
      as (done & Hpre & Hfiles & Hdata & _ & Hall & _).
    exists ((λ p, (p.1, result_to_write_batch p.1 p.2)) <$> done).
    assert (((λ p : TestCase * json, (p.1, result_to_write_batch p.1 p.2))
               <$> done).*1 = done.*1) as Hfst.
    { rewrite <- list_fmap_compose. done. }
    rewrite Hfst. split; [|split; [|split; [|split]]].
    + destruct Hpre as [later Hlater].
      pose proof (zip_fst_prefix test_cases result) as [more Hmore].
      exists (later.*1 ++ more). rewrite Hmore at 1. rewrite Hlater.
      by rewrite fmap_app, app_assoc.
    + apply Forall_fmap, Forall_forall. by intros [tc res] _.
    + exact Hfiles.
    + exact Hdata.
    + intros Hbatch Hok. rewrite (Hall Hok). apply fst_zip. by eapply Hbatch.
  - destruct (interactive_loop_written args model_name h None test_cases w)
      as (written & Hpre & Hids & Hfiles & Hdata & Hall).
    exists written. repeat split; try done; intros _; exact Hall.
Qed.

End Written.

(** ** The prefix invariant *)

Section ListFacts.
Context {A : Type} (P : A → Prop) `{∀ x, Decision (P x)}.

Lemma filter_all (l : list A) : Forall P l → filter P l = l.
Proof.
  induction 1 as [|x l Hx _ IH]; [done|].
  by rewrite filter_cons_True, IH.
Qed.

Lemma filter_none (l : list A) : Forall (λ x, ¬ P x) l → filter P l = [].
Proof.
  induction 1 as [|x l Hx _ IH]; [done|].
  by rewrite filter_cons_False, IH.
Qed.

End ListFacts.

Section PrefixInvariant.
Context {H : Type} `{Handler H}.

Lemma file_to_write_dir language model1 model2 test_category :
  model_name_dir model1 = model_name_dir model2 →
  file_to_write language model1 test_category
  = file_to_write language model2 test_category.
Proof. unfold file_to_write, result_dir. by intros ->. Qed.

Lemma num_existing_result_length language model_name file_to_open w :
  num_existing_result language model_name file_to_open w
  = length (default [] (files w !! result_path language model_name file_to_open)).
Proof.
  unfold num_existing_result.
  by destruct (files w !! result_path language model_name file_to_open).
Qed.

Lemma prefix_invariant_ext w w' :
  files w' = files w → data w' = data w →
  prefix_invariant w → prefix_invariant w'.
Proof.
  intros Hf Hd Hinv language model_name c f Hc.
  destruct (Hinv language model_name c f Hc) as [k Hk]. exists k.
  unfold log_of, cases_of in *. by rewrite Hf, Hd.
Qed.

Lemma well_formed_data_ext w w' :
  data w' = data w → well_formed_data w → well_formed_data w'.
Proof.
  intros Hd Hwf language c f test_cases Hc Hf. rewrite Hd in Hf.
  by eapply Hwf.
Qed.

(** Writing the record of the next pending case keeps the invariant of
    the run. *)
Lemma pending_invariant_step language0 model0 cases logs test_case entry
    remaining :
  known_category test_case →
  recorded_id entry = Some (tc_id test_case) →
  pending_invariant language0 model0 cases logs (test_case :: remaining) →
  pending_invariant language0 model0 cases
    (append_record language0 model0 logs (test_case, entry)) remaining.
Proof.
  intros [f0 Hf0] Hid Hinv language model_name c f Hc.
  destruct (Hinv language model_name c f Hc) as [k Hk]. exists k.
  rewrite <- Hk. clear Hk. unfold append_record. simpl.
  rewrite lookup_insert.
  pose proof (TEST_FILE_MAPPING_lookup _ _ Hc) as (_ & Hslash & _).
  pose proof (TEST_FILE_MAPPING_lookup _ _ Hf0) as (_ & Hslash0 & _).
  destruct (decide (file_to_write language0 model0
                      (category_of_id (tc_id test_case))
                    = file_to_write language model_name c)) as [Heq|Hne].
  - destruct (file_to_write_eq _ _ _ _ _ _ Hslash0 Hslash Heq)
      as (Hlang & Hdir & Hcat).
    rewrite Heq.
    destruct (decide (language = language0
                      ∧ model_name_dir model_name = model_name_dir model0))
      as [_|Hn]; [|by destruct Hn].
    rewrite filter_cons_True by done. simpl.
    rewrite fmap_app, <- app_assoc. simpl. by rewrite Hid.
  - destruct (decide (language = language0
                      ∧ model_name_dir model_name = model_name_dir model0))
      as [[-> Hdir]|]; [|done].
    rewrite filter_cons_False; [done|]. intros Hcat. apply Hne.
    rewrite Hcat. by apply file_to_write_dir.
Qed.

Lemma pending_invariant_written language0 model0 cases logs
    (written : list (TestCase * json)) remaining :
  Forall (λ p, known_category p.1 ∧ recorded_id p.2 = Some (tc_id p.1)) written →
  pending_invariant language0 model0 cases logs (written.*1 ++ remaining) →
  pending_invariant language0 model0 cases
    (foldl (append_record language0 model0) logs written) remaining.
Proof.
  intros Hall. revert logs.
  induction Hall as [|[test_case entry] rest [Hknown Hid] _ IH]; intros logs Hinv;
    [done|].
  simpl. apply IH. by apply pending_invariant_step.
Qed.

(** Whatever remains to be processed, the logs satisfy the prefix
    invariant. *)
Lemma pending_invariant_prefix language0 model0 w remaining :
  pending_invariant language0 model0 (data w) (files w) remaining →
  prefix_invariant w.
Proof.
  intros Hinv language model_name c f Hc.
  destruct (Hinv language model_name c f Hc) as [k Hk].
  unfold log_of, cases_of.
  set (l := recorded_id <$> default []
              (files w !! file_to_write language model_name c)) in *.
  exists (min (length l) k).
  by rewrite <- take_take, fmap_take, <- Hk, take_app_length.
Qed.

Lemma pending_of_category language model_name w test_category file_to_open :
  well_formed_data w →
  TEST_FILE_MAPPING !! test_category = Some file_to_open →
  Forall (λ test_case, category_of_id (tc_id test_case) = test_category)
         (pending_of language model_name w file_to_open).
Proof.
  intros Hwf Hc. unfold pending_of. apply Forall_drop.
  destruct (data w !! data_path language file_to_open) as [test_cases|] eqn:Hf;
    simpl; [by eapply Hwf | constructor].
Qed.

(** The pending cases of one category are those of its data file. *)
Lemma filter_pending language model_name w filenames test_category file_to_open :
  well_formed_data w → NoDup filenames →
  Forall (λ f, ∃ c, TEST_FILE_MAPPING !! c = Some f) filenames →
  TEST_FILE_MAPPING !! test_category = Some file_to_open →
  filter (λ test_case, category_of_id (tc_id test_case) = test_category)
         (concat (pending_of language model_name w <$> filenames))
  = if decide (file_to_open ∈ filenames)
    then pending_of language model_name w file_to_open else [].
Proof.
  intros Hwf Hnodup Hall Hc.
  induction Hall as [|f rest [c' Hc'] Hrest IH].
  - rewrite decide_False; [done | apply not_elem_of_nil].
  - apply NoDup_cons in Hnodup as [Hnotin Hnodup].
    rewrite fmap_cons. simpl. rewrite filter_app, (IH Hnodup).
    destruct (decide (f = file_to_open)) as [->|Hne].
    + assert (c' = test_category) as ->.
      { apply TEST_FILE_MAPPING_lookup in Hc as (Hf1 & _).
        apply TEST_FILE_MAPPING_lookup in Hc' as (Hf2 & _).
        rewrite Hf1 in Hf2. apply (inj (String.append _)) in Hf2.
        by apply append_inj_r in Hf2. }
      rewrite filter_all by by apply pending_of_category.
      rewrite (decide_False (P := file_to_open ∈ rest)) by done.
      rewrite decide_True by apply list_elem_of_here.
      by rewrite app_nil_r.
    + rewrite filter_none.
      2: { eapply Forall_impl; [by apply (pending_of_category _ _ _ c' f)|].
           simpl. intros tc -> ->. congruence. }
      simpl. destruct (decide (file_to_open ∈ rest)) as [Hin|Hout].
      * rewrite decide_True; [done | by apply list_elem_of_further].
      * rewrite decide_False; [done|].
        intros [?|?]%elem_of_cons; [congruence | done].
Qed.

(** The selection of a run establishes the invariant of that run. *)
Lemma pending_invariant_init language0 model0 w filenames :
  well_formed_data w → prefix_invariant w → NoDup filenames →
  Forall (λ f, ∃ c, TEST_FILE_MAPPING !! c = Some f) filenames →
  pending_invariant language0 model0 (data w) (files w)
    (concat (pending_of language0 model0 w <$> filenames)).
Proof.
  intros Hwf Hinv Hnodup Hall language model_name c f Hc.
  destruct (Hinv language model_name c f Hc) as [k Hk].
  unfold log_of, cases_of in Hk.
  destruct (decide (language = language0
                    ∧ model_name_dir model_name = model_name_dir model0))
    as [[-> Hdir]|]; [|exists k; by rewrite app_nil_r].
  rewrite (filter_pending _ _ _ _ c f) by done.
  destruct (decide (f ∈ filenames)); [|exists k; by rewrite app_nil_r].
  unfold pending_of. rewrite num_existing_result_length.
  rewrite (result_path_file_to_write _ _ c) by done.
  rewrite <- (file_to_write_dir language0 model_name model0) by done.
  set (log := default [] (files w !! file_to_write language0 model_name c)) in *.
  set (test_cases := default [] (data w !! data_path language0 f)) in *.
  assert (length log = min k (length test_cases)) as Hlen.
  { apply (f_equal length) in Hk. by rewrite !length_fmap, length_take in Hk. }
  assert (take k test_cases = take (length log) test_cases) as Htake.
  { rewrite Hlen, <- take_take. by rewrite (take_ge test_cases (length test_cases)). }
  exists (length test_cases).
  rewrite Hk, Htake, <- fmap_app, take_drop. by rewrite take_ge.
Qed.

(** One model run keeps the prefix invariant, whether it ends normally or
    with an exception. *)
Lemma run_model_prefix_invariant handler_map USE_COHERE_OPTIMIZATION args
    filenames model_name w :
  well_formed_data w → prefix_invariant w → NoDup filenames →
  Forall (λ f, ∃ c, TEST_FILE_MAPPING !! c = Some f) filenames →
  prefix_invariant
    (run_model handler_map USE_COHERE_OPTIMIZATION args filenames model_name w).1
  ∧ data (run_model handler_map USE_COHERE_OPTIMIZATION args filenames
            model_name w).1 = data w.
Proof.
  intros Hwf Hinv Hnodup Hall. unfold run_model.
  set (m := optimized_model_name USE_COHERE_OPTIMIZATION model_name).
  set (w1 := makedirs _ (makedirs _ w)).
  assert (files w1 = files w) as Hf1 by done.
  assert (data w1 = data w) as Hd1 by done.
  assert (prefix_invariant w1) as Hinv1 by by eapply prefix_invariant_ext.
  assert (well_formed_data w1) as Hwf1 by by eapply well_formed_data_ext.
  destruct (collect_test_cases (language args) filenames m w1)
    as [err|pending] eqn:Hcollect; [done|].
  destruct (length pending =? 0); [done|].
  apply collect_test_cases_inr in Hcollect as [_ ->].
  destruct (generate_results_written handler_map args m
              (concat (pending_of (language args) m w1 <$> filenames)) w1)
    as (written & [remaining Hpre] & Hids & Hfiles & Hdata & _).
  split; [|by rewrite Hdata].
  apply (pending_invariant_prefix (language args) m _ remaining).
  rewrite Hfiles, Hdata. apply pending_invariant_written.
  - assert (Forall known_category
              (concat (pending_of (language args) m w1 <$> filenames))) as Hknown.
    { apply Forall_concat, Forall_fmap, Forall_forall. intros f Hf. simpl.
      rewrite Forall_forall in Hall. destruct (Hall f Hf) as [c Hc].
      eapply Forall_impl; [by apply (pending_of_category _ _ _ c f)|].
      simpl. intros tc Htc. unfold known_category. rewrite Htc. by exists f. }
    rewrite Hpre in Hknown. apply Forall_app in Hknown as [Hknown _].
    rewrite Forall_fmap in Hknown.
    rewrite Forall_forall in Hknown. rewrite Forall_forall in Hids.
    apply Forall_forall.
    intros p Hp. split; [exact (Hknown p Hp) | exact (Hids p Hp)].
  - rewrite <- Hpre. by apply pending_invariant_init.
Qed.

Lemma run_models_prefix_invariant handler_map USE_COHERE_OPTIMIZATION args
    filenames models w :
  well_formed_data w → prefix_invariant w → NoDup filenames →
  Forall (λ f, ∃ c, TEST_FILE_MAPPING !! c = Some f) filenames →
  prefix_invariant
    (run_models handler_map USE_COHERE_OPTIMIZATION args filenames models w).1
  ∧ data (run_models handler_map USE_COHERE_OPTIMIZATION args filenames
            models w).1 = data w.
Proof.
  intros Hwf Hinv Hnodup Hall. revert w Hwf Hinv.
  induction models as [|model_name rest IH]; intros w Hwf Hinv; [done|].
  simpl.
  destruct (run_model_prefix_invariant handler_map USE_COHERE_OPTIMIZATION
              args filenames model_name w Hwf Hinv Hnodup Hall) as [Hinv1 Hdata1].
  destruct (run_model _ _ _ _ _ _) as [w1 [err|[]]]; [done|].
  simpl in *. destruct (IH w1) as [Hinv2 Hdata2];
    [by eapply well_formed_data_ext | done |].
  split; [done | congruence].
Qed.

Lemma main_prefix_invariant TEST_COLLECTION_MAPPING handler_map
    USE_COHERE_OPTIMIZATION args w :
  well_formed_data w → prefix_invariant w →
  prefix_invariant
    (main TEST_COLLECTION_MAPPING handler_map USE_COHERE_OPTIMIZATION args w).1
  ∧ data (main TEST_COLLECTION_MAPPING handler_map USE_COHERE_OPTIMIZATION
            args w).1 = data w.
Proof.
  intros Hwf Hinv. unfold main.
  destruct (parse_test_category_argument _ _) as [err|[names filenames]] eqn:Hparse;
    [done|].
  apply parse_test_category_argument_inr in Hparse as (_ & Hnodup & _ & Hfiles).
  apply run_models_prefix_invariant; try done.
  apply Forall_forall. intros f Hf. apply Hfiles in Hf as (c & _ & Hc).
  by exists c.
Qed.


End PrefixInvariant.

Section Scenarios.

Lemma prefix_invariant_no_logs w : files w = ∅ → prefix_invariant w.
Proof.
  intros Hfiles language model_name c f Hc. exists 0.
  unfold log_of. by rewrite Hfiles, lookup_empty, take_0.
Qed.

(** A world with the data file of one category, whose cases all have ids
    of that category, has well-formed data. *)
Lemma well_formed_data_one_file language0 test_category0 file0 test_cases w :
  TEST_FILE_MAPPING !! test_category0 = Some file0 →
  data w = {[ data_path language0 file0 := test_cases ]} →
  Forall (λ test_case, category_of_id (tc_id test_case) = test_category0)
         test_cases →
  well_formed_data w.
Proof.
  intros Hc0 Hdata Hall language c f cases Hc Hf.
  rewrite Hdata in Hf. apply lookup_singleton_Some in Hf as [Hpath <-].
  assert (c = test_category0) as ->; [|done].
  apply TEST_FILE_MAPPING_lookup in Hc as (-> & Hs & _).
  apply TEST_FILE_MAPPING_lookup in Hc0 as (-> & Hs0 & _).
  unfold data_path in Hpath.
  apply (inj (String.append _)) in Hpath.
  change ("/" +:+ ?x) with (String "/" x) in Hpath.
  apply split_last_slash in Hpath as [_ Hname].
  - apply (inj (String.append _)) in Hname. symmetry. by apply append_inj_r in Hname.
  - by rewrite !has_char_append, Hs0.
  - by rewrite !has_char_append, Hs.
Qed.

Lemma scenario_world_well_formed : well_formed_data scenario_world.
Proof.
  apply (well_formed_data_one_file "en" "simple"
           "gorilla_openfunctions_v1_test_simple.json"
           [simple_case "0"; simple_case "1"; simple_case "2"]).
  - by vm_compute.
  - done.
  - by repeat constructor.
Qed.

(** The scenario of the refused call: "simple_0" is recorded, the run ends
    with the exception of the adapter, and the log holds one record. *)
Example refused_run_records_one_case :
  let run := main ∅ (run_handlers refused_run) false scenario_args scenario_world in
  run.2 = inl (AdapterError unauthorized)
  ∧ recorded_id <$> log_of "en" "m" "simple" run.1 = [Some "simple_0"].
Proof. by vm_compute. Qed.

(** A run that ends normally: the rate-limit failure on "simple_1" is
    followed by one sleep and a second call, whose answer is recorded. *)
Example complete_run_records_every_case :
  let run := main ∅ (run_handlers complete_run) false scenario_args scenario_world in
  run.2 = inr tt
  ∧ recorded_id <$> log_of "en" "m" "simple" run.1
    = [Some "simple_0"; Some "simple_1"; Some "simple_2"]
  ∧ trace run.1 =
    [EvInference (JStr "What is the area of a circle of radius 2?")
       (JList [JDict [("name", JStr "circle_area")]]) "simple";
     EvInference (JStr "What is the area of a circle of radius 2?")
       (JList [JDict [("name", JStr "circle_area")]]) "simple";
     EvSleep 65;
     EvInference (JStr "What is the area of a circle of radius 2?")
       (JList [JDict [("name", JStr "circle_area")]]) "simple";
     EvInference (JStr "What is the area of a circle of radius 2?")
       (JList [JDict [("name", JStr "circle_area")]]) "simple"].
Proof. by vm_compute. Qed.

(** Two rate-limit failures followed by an answer: the third attempt is
    made after two sleeps and its answer leaves the loop. *)
Example two_failures_then_an_answer :
  let h := interactive_script
             [inl rate_limited; inl rate_limited;
              inr (JStr "circle_area(radius=2)", usage 7)] in
  let loop := retry_loop h empty_world (JStr "q") (JList []) "simple" 0 in
  loop.2 = Break (JStr "circle_area(radius=2)") (usage 7)
  ∧ trace loop.1.2 =
    [EvInference (JStr "q") (JList []) "simple"; EvSleep RETRY_DELAY;
     EvInference (JStr "q") (JList []) "simple"; EvSleep RETRY_DELAY;
     EvInference (JStr "q") (JList []) "simple"].
Proof. by vm_compute. Qed.

(** Three rate-limit failures on the first case of a run: the loop is left
    without an answer and the run stops on the unbound local. *)
Example three_failures_on_the_first_case :
  let h := interactive_script [inl rate_limited; inl rate_limited; inl rate_limited] in
  let run := generate_results {[ "m" := (InteractiveStyle, h) ]} scenario_args "m"
               [simple_case "0"] empty_world in
  run.2 = inl (UnboundLocalError "result") ∧ files run.1 = ∅.
Proof. by vm_compute. Qed.

End Scenarios.



(** ** Resumption *)

Section Resume.
Context {H : Type} `{Handler H}.

(** Logs only grow. *)
Lemma append_record_length language model_name logs p path :
  length (default [] (logs !! path))
  ≤ length (default [] (append_record language model_name logs p !! path)).
Proof.
  unfold append_record. rewrite lookup_insert. case_decide as Hpath; [|done].
  subst path. simpl. rewrite length_app. lia.
Qed.

Lemma foldl_append_record_length language model_name logs written path :
  length (default [] (logs !! path))
  ≤ length (default []
              (foldl (append_record language model_name) logs written !! path)).
Proof.
  revert logs. induction written as [|p rest IH]; intros logs; [done|].
  simpl. etrans; [|apply IH]. apply append_record_length.
Qed.

Lemma counted_step language model_name logs test_case entry remaining c :
  counted language model_name
    (append_record language model_name logs (test_case, entry)) remaining c
  = counted language model_name logs (test_case :: remaining) c.
Proof.
  unfold counted, append_record. simpl. rewrite lookup_insert, filter_cons.
  destruct (decide (file_to_write language model_name
                      (category_of_id (tc_id test_case))
                    = file_to_write language model_name c)) as [Heq|Hne].
  - pose proof (file_to_write_inj _ _ _ _ Heq) as Hcat.
    rewrite decide_True by done. rewrite Heq. simpl.
    rewrite length_app. simpl. lia.
  - rewrite decide_False; [done|]. intros Hcat. apply Hne. by rewrite Hcat.
Qed.

Lemma counted_written language model_name logs
    (written : list (TestCase * json)) remaining c :
  counted language model_name
    (foldl (append_record language model_name) logs written) remaining c
  = counted language model_name logs (written.*1 ++ remaining) c.
Proof.
  revert logs. induction written as [|[test_case entry] rest IH]; intros logs;
    [done|].
  simpl. by rewrite IH, counted_step.
Qed.

Lemma all_recorded_ext language model_name w w' file_to_open :
  files w' = files w → data w' = data w →
  all_recorded language model_name w file_to_open →
  all_recorded language model_name w' file_to_open.
Proof.
  unfold all_recorded, cases_of, num_existing_result. by intros -> ->.
Qed.

(** Once every selected case of a model run has been written, nothing is
    pending in the selected files. *)
Lemma all_recorded_after language model_name w w' filenames
    (written : list (TestCase * json)) :
  well_formed_data w → NoDup filenames →
  Forall (λ f, ∃ c, TEST_FILE_MAPPING !! c = Some f) filenames →
  written.*1 = concat (pending_of language model_name w <$> filenames) →
  files w' = foldl (append_record language model_name) (files w) written →
  data w' = data w →
  Forall (all_recorded language model_name w') filenames.
Proof.
  intros Hwf Hnodup Hall Hwritten Hfiles Hdata.
  apply Forall_forall. intros f Hf.
  pose proof Hall as Hall'. rewrite Forall_forall in Hall'.
  destruct (Hall' f Hf) as [c Hc].
  unfold all_recorded. rewrite num_existing_result_length.
  rewrite (result_path_file_to_write _ _ c) by done.
  pose proof (counted_written language model_name (files w) written [] c) as Hcount.
  unfold counted in Hcount. rewrite filter_nil, app_nil_r in Hcount.
  simpl in Hcount. rewrite Nat.add_0_r in Hcount.
  rewrite Hfiles, Hcount, Hwritten.
  rewrite (filter_pending _ _ _ _ c f) by done.
  rewrite decide_True by done.
  unfold pending_of at 1. rewrite length_drop, num_existing_result_length.
  rewrite (result_path_file_to_write _ _ c) by done.
  unfold cases_of. rewrite Hdata. lia.
Qed.

(** What one model run does to the logs: it appends records. *)
Lemma run_model_appends handler_map USE_COHERE_OPTIMIZATION args filenames
    model_name w :
  ∃ written : list (TestCase * json),
    files (run_model handler_map USE_COHERE_OPTIMIZATION args filenames
             model_name w).1
    = foldl (append_record (language args)
               (optimized_model_name USE_COHERE_OPTIMIZATION model_name))
            (files w) written
    ∧ data (run_model handler_map USE_COHERE_OPTIMIZATION args filenames
              model_name w).1 = data w
    ∧ (batch_answers_all handler_map →
       (run_model handler_map USE_COHERE_OPTIMIZATION args filenames
          model_name w).2 = inr tt →
       Forall (λ f, is_Some (data w !! data_path (language args) f)) filenames
       ∧ written.*1
         = concat (pending_of (language args)
                     (optimized_model_name USE_COHERE_OPTIMIZATION model_name) w
                   <$> filenames)).
Proof.
  unfold run_model.
  set (m := optimized_model_name USE_COHERE_OPTIMIZATION model_name).
  set (w1 := makedirs _ (makedirs _ w)).
  destruct (collect_test_cases (language args) filenames m w1)
    as [err|pending] eqn:Hcollect.
  { exists []. by repeat split. }
  apply collect_test_cases_inr in Hcollect as [Hpresent ->].
  change (pending_of (language args) m w1) with (pending_of (language args) m w).
  destruct (length _ =? 0) eqn:Hlen.
  - exists []. repeat split; try done.
    apply Nat.eqb_eq in Hlen. symmetry. by apply nil_length_inv.
  - destruct (generate_results_written handler_map args m
                (concat (pending_of (language args) m w <$> filenames)) w1)
      as (written & _ & _ & Hfiles & Hdata & Hall).
    exists written. split; [exact Hfiles|]. split; [exact Hdata|].
    intros Hbatch Hok. split; [done | by apply Hall].
Qed.

(** A run that ends normally leaves nothing pending for any of its
    models. *)
Lemma run_models_all_recorded handler_map USE_COHERE_OPTIMIZATION args
    filenames models w w' :
  well_formed_data w → NoDup filenames →
  Forall (λ f, ∃ c, TEST_FILE_MAPPING !! c = Some f) filenames →
  batch_answers_all handler_map →
  run_models handler_map USE_COHERE_OPTIMIZATION args filenames models w
  = (w', inr tt) →
  data w' = data w
  ∧ (∀ path, length (default [] (files w !! path))
             ≤ length (default [] (files w' !! path)))
  ∧ (models ≠ [] →
     Forall (λ f, is_Some (data w !! data_path (language args) f)) filenames)
  ∧ Forall (λ model_name,
      Forall (all_recorded (language args)
                (optimized_model_name USE_COHERE_OPTIMIZATION model_name) w')
             filenames) models.
Proof.
  intros Hwf Hnodup Hall Hbatch. revert w Hwf.
  induction models as [|model_name rest IH]; intros w Hwf Hrun; simpl in Hrun.
  { injection Hrun as <-. by repeat split. }
  destruct (run_model_appends handler_map USE_COHERE_OPTIMIZATION args
              filenames model_name w) as (written & Hfiles & Hdata & Hok).
  destruct (run_model handler_map USE_COHERE_OPTIMIZATION args filenames
              model_name w) as [w1 [err|[]]]; [done|].
  simpl in *. destruct (Hok Hbatch eq_refl) as [Hpresent Hwritten].
  destruct (IH w1 (well_formed_data_ext _ _ Hdata Hwf) Hrun)
    as (Hdata' & Hgrow & _ & Hrest).
  split; [congruence|]. split; [|split].
  - intros path. etrans; [|apply Hgrow]. rewrite Hfiles.
    apply foldl_append_record_length.
  - done.
  - constructor; [|done].
    pose proof (all_recorded_after _ _ w w1 filenames written
                  Hwf Hnodup Hall Hwritten Hfiles Hdata) as Hrec.
    eapply Forall_impl; [exact Hrec|]. intros f. unfold all_recorded, cases_of.
    rewrite !num_existing_result_length, Hdata'. intros Hle.
    etrans; [exact Hle | apply Hgrow].
Qed.

(** With nothing pending, a run selects no case, calls no adapter and
    writes nothing. *)
Lemma run_models_nothing_pending handler_map USE_COHERE_OPTIMIZATION args
    filenames models w :
  Forall (λ f, is_Some (data w !! data_path (language args) f)) filenames →
  Forall (λ model_name,
    Forall (all_recorded (language args)
              (optimized_model_name USE_COHERE_OPTIMIZATION model_name) w)
           filenames) models →
  Forall (λ model_name,
    collect_test_cases (language args) filenames
      (optimized_model_name USE_COHERE_OPTIMIZATION model_name) w = inr []) models
  ∧ (run_models handler_map USE_COHERE_OPTIMIZATION args filenames models w).2
    = inr tt
  ∧ files (run_models handler_map USE_COHERE_OPTIMIZATION args filenames
             models w).1 = files w
  ∧ trace (run_models handler_map USE_COHERE_OPTIMIZATION args filenames
             models w).1 = trace w.
Proof.
  intros Hpresent Hrec.
  assert (∀ model_name w0, files w0 = files w → data w0 = data w →
    Forall (all_recorded (language args)
              (optimized_model_name USE_COHERE_OPTIMIZATION model_name) w)
           filenames →
    collect_test_cases (language args) filenames
      (optimized_model_name USE_COHERE_OPTIMIZATION model_name) w0 = inr [])
    as Hcollect.
  { intros model_name w0 Hf Hd Hall. unfold collect_test_cases.
    rewrite collect_loop_present by by rewrite Hd.
    f_equal. simpl. clear Hpresent Hrec.
    induction Hall as [|f rest Hfrec _ IH]; [done|].
    rewrite fmap_cons. simpl. rewrite IH, app_nil_r.
    unfold pending_of. apply drop_ge.
    unfold all_recorded, cases_of, num_existing_result in *.
    by rewrite Hf, Hd. }
  split.
  { eapply Forall_impl; [exact Hrec|]. intros model_name Hm.
    apply Hcollect; [reflexivity | reflexivity | exact Hm]. }
  assert (∀ w0, files w0 = files w → data w0 = data w → trace w0 = trace w →
    (run_models handler_map USE_COHERE_OPTIMIZATION args filenames models w0).2
      = inr tt
    ∧ files (run_models handler_map USE_COHERE_OPTIMIZATION args filenames
               models w0).1 = files w
    ∧ trace (run_models handler_map USE_COHERE_OPTIMIZATION args filenames
               models w0).1 = trace w) as Hrun;
    [|apply Hrun; reflexivity].
  induction Hrec as [|model_name rest Hm _ IH]; intros w0 Hf Hd Ht; [done|].
  simpl. unfold run_model.
  rewrite (Hcollect model_name (makedirs _ (makedirs _ w0)) Hf Hd Hm).
  simpl. apply IH; assumption.
Qed.

End Resume.

(** C8: resumption is idempotent.  When the data are well formed, the batch
    adapters answer every question and a run of the program ends normally,
    a second run with the same arguments, whatever its adapters, selects no
    pending case for any of its models, calls no adapter, ends normally and
    leaves every log file as it was. *)
Theorem C8_resume_is_idempotent {H : Type} `{Handler H}
    (TEST_COLLECTION_MAPPING : gmap string (list string))
    (handler_map handler_map' : gmap string (ModelStyle * H))
    (USE_COHERE_OPTIMIZATION : bool) (args : Args) (w w1 : World)
    (Hdata : well_formed_data w)
    (Hbatch : batch_answers_all handler_map)
    (Hrun : main TEST_COLLECTION_MAPPING handler_map USE_COHERE_OPTIMIZATION args w
            = (w1, inr tt)) :
  let again :=
    main TEST_COLLECTION_MAPPING handler_map' USE_COHERE_OPTIMIZATION args w1 in
  (∃ test_name_total test_filename_total,
     parse_test_category_argument TEST_COLLECTION_MAPPING (test_category args)
     = inr (test_name_total, test_filename_total)
     ∧ Forall (λ model_name,
         collect_test_cases (language args) test_filename_total
           (optimized_model_name USE_COHERE_OPTIMIZATION model_name) w1 = inr [])
         (model args))
  ∧ again.2 = inr tt
  ∧ files again.1 = files w1
  ∧ trace again.1 = trace w1.
Proof.
  intros again. subst again. unfold main in *.
  destruct (parse_test_category_argument TEST_COLLECTION_MAPPING
              (test_category args)) as [err|[names filenames]] eqn:Hparse; [done|].
  apply parse_test_category_argument_inr in Hparse as (_ & Hnodup & _ & Hfiles).
  assert (Forall (λ f, ∃ c, TEST_FILE_MAPPING !! c = Some f) filenames) as Hall.
  { apply Forall_forall. intros f Hf. apply Hfiles in Hf as (c & _ & Hc).
    by exists c. }
  destruct (run_models_all_recorded handler_map USE_COHERE_OPTIMIZATION args
              filenames (model args) w w1 Hdata Hnodup Hall Hbatch Hrun)
    as (Hd & _ & Hpresent & Hrec).
  destruct (model args) as [|model_name models] eqn:Hmodels.
  { split; [exists names, filenames; by split|]. done. }
  assert (Forall (λ f, is_Some (data w1 !! data_path (language args) f)) filenames)
    as Hpresent1.
  { rewrite Hd. by apply Hpresent. }
  destruct (run_models_nothing_pending handler_map' USE_COHERE_OPTIMIZATION args
              filenames (model_name :: models) w1 Hpresent1 Hrec)
    as (Hnone & Hok & Hf & Ht).
  split; [exists names, filenames; by split|]. done.
Qed.

Lemma C8_resume_is_idempotent_witness :
  let first := main ∅ (run_handlers complete_run) false scenario_args scenario_world in
  let again := main ∅ (run_handlers refused_run) false scenario_args first.1 in
  again.2 = inr tt ∧ files again.1 = files first.1 ∧ trace again.1 = trace first.1.
Proof.
  intros first again.
  destruct (C8_resume_is_idempotent ∅ (run_handlers complete_run)
              (run_handlers refused_run) false scenario_args scenario_world first.1)
    as (_ & Hok & Hfiles & Htrace).
  - exact scenario_world_well_formed.
  - intros model_name h test_cases h' result metadata Hh.
    unfold complete_run in Hh. simpl in Hh.
    apply lookup_singleton_Some in Hh as [_ Hh]. discriminate.
  - vm_compute. reflexivity.
  - split; [exact Hok | split; [exact Hfiles | exact Htrace]].
Defined.


(** * Further properties of the runner *)

(** ** Configuration errors *)

Section ConfigurationErrors.
Context {H : Type} `{Handler H}.
Variable TEST_COLLECTION_MAPPING : gmap string (list string).

Lemma add_test_names_known test_names acc acc' :
  add_test_names test_names acc = inr acc' →
  Forall (λ n, is_Some (TEST_FILE_MAPPING !! n)) test_names.
Proof.
  revert acc. induction test_names as [|name rest IH]; intros acc; simpl; [done|].
  destruct (add_test_name name acc) as [err|acc1] eqn:Hadd; [done|].
  apply add_test_name_inr in Hadd as (f & Hf & _).
  intros Hrest. constructor; [by exists f | by eapply IH].
Qed.

Lemma add_test_names_inl test_names acc err :
  add_test_names test_names acc = inl err →
  ∃ n, n ∈ test_names ∧ TEST_FILE_MAPPING !! n = None ∧ err = KeyError n.
Proof.
  revert acc. induction test_names as [|name rest IH]; intros acc; simpl; [done|].
  unfold add_test_name at 1.
  destruct (TEST_FILE_MAPPING !! name) as [f|] eqn:Hf.
  - intros (n & Hn & Hnone & ->)%IH. exists n.
    split; [by apply list_elem_of_further | done].
  - intros [= <-]. exists name. split; [apply list_elem_of_here | done].
Qed.

Lemma parse_loop_step token rest acc :
  parse_loop TEST_COLLECTION_MAPPING (token :: rest) acc =
  match add_test_names (expand_category TEST_COLLECTION_MAPPING token) acc with
  | inl err => inl err
  | inr acc' => parse_loop TEST_COLLECTION_MAPPING rest acc'
  end.
Proof.
  simpl. unfold expand_category.
  destruct (TEST_COLLECTION_MAPPING !! token); simpl; [done|].
  by destruct (add_test_name token acc).
Qed.

Lemma parse_loop_known test_category_args acc acc' :
  parse_loop TEST_COLLECTION_MAPPING test_category_args acc = inr acc' →
  Forall (λ token, Forall (λ n, is_Some (TEST_FILE_MAPPING !! n))
                     (expand_category TEST_COLLECTION_MAPPING token))
         test_category_args.
Proof.
  revert acc. induction test_category_args as [|token rest IH]; intros acc; [done|].
  rewrite parse_loop_step.
  destruct (add_test_names _ acc) as [err|acc1] eqn:Hadd; [done|].
  intros Hrest. constructor; [by eapply add_test_names_known | by eapply IH].
Qed.

Lemma parse_loop_inl test_category_args acc err :
  parse_loop TEST_COLLECTION_MAPPING test_category_args acc = inl err →
  ∃ token n, token ∈ test_category_args
    ∧ n ∈ expand_category TEST_COLLECTION_MAPPING token
    ∧ TEST_FILE_MAPPING !! n = None ∧ err = KeyError n.
Proof.
  revert acc. induction test_category_args as [|token rest IH]; intros acc; [done|].
  rewrite parse_loop_step.
  destruct (add_test_names _ acc) as [err1|acc1] eqn:Hadd.
  - intros [= <-]. apply add_test_names_inl in Hadd as (n & Hn & Hnone & ->).
    exists token, n. split; [apply list_elem_of_here | done].
  - intros (t & n & Ht & Hrest)%IH. exists t, n.
    split; [by apply list_elem_of_further | done].
Qed.

Lemma parse_test_category_argument_known test_category_args names filenames :
  parse_test_category_argument TEST_COLLECTION_MAPPING test_category_args
  = inr (names, filenames) →
  Forall (λ token, Forall (λ n, is_Some (TEST_FILE_MAPPING !! n))
                     (expand_category TEST_COLLECTION_MAPPING token))
         test_category_args.
Proof.
  unfold parse_test_category_argument.
  destruct (parse_loop TEST_COLLECTION_MAPPING test_category_args (∅, ∅))
    as [err|acc] eqn:Hloop; [done|].
  intros _. by eapply parse_loop_known.
Qed.

End ConfigurationErrors.

(** X1: a requested token that is no alias and has no data file, or an
    alias with such a member, stops the program before anything happens:
    [main] returns the world it was given together with a [KeyError] that
    names a requested leaf category without a data file.  When no exception
    is raised, every requested leaf category has a data file. *)
Theorem X1_unknown_category_stops_the_run {H : Type} `{Handler H}
    (TEST_COLLECTION_MAPPING : gmap string (list string))
    (handler_map : gmap string (ModelStyle * H))
    (USE_COHERE_OPTIMIZATION : bool) (args : Args) (w : World) :
  match parse_test_category_argument TEST_COLLECTION_MAPPING (test_category args) with
  | inl err =>
      main TEST_COLLECTION_MAPPING handler_map USE_COHERE_OPTIMIZATION args w
      = (w, inl err)
      ∧ ∃ token n, token ∈ test_category args
          ∧ n ∈ expand_category TEST_COLLECTION_MAPPING token
          ∧ TEST_FILE_MAPPING !! n = None ∧ err = KeyError n
  | inr _ =>
      Forall (λ token, Forall (λ n, is_Some (TEST_FILE_MAPPING !! n))
                         (expand_category TEST_COLLECTION_MAPPING token))
             (test_category args)
  end.
Proof.
  destruct (parse_test_category_argument TEST_COLLECTION_MAPPING
              (test_category args)) as [err|[names filenames]] eqn:Hparse.
  - split; [unfold main; by rewrite Hparse|].
    unfold parse_test_category_argument in Hparse.
    destruct (parse_loop TEST_COLLECTION_MAPPING (test_category args) (∅, ∅))
      as [err1|acc] eqn:Hloop; [|done].
    injection Hparse as <-. by eapply parse_loop_inl.
  - by eapply parse_test_category_argument_known.
Qed.

(** X2: the resolved categories do not depend on the order of the requested
    tokens nor on their repetition: two requests with the same tokens
    resolve to the same leaf categories and the same data files, up to the
    order of the lists. *)
Theorem X2_category_order_is_irrelevant
    (TEST_COLLECTION_MAPPING : gmap string (list string))
    (args1 args2 names1 filenames1 : list string)
    (Hsame : ∀ token, token ∈ args1 ↔ token ∈ args2)
    (Hparse : parse_test_category_argument TEST_COLLECTION_MAPPING args1
              = inr (names1, filenames1)) :
  ∃ names2 filenames2,
    parse_test_category_argument TEST_COLLECTION_MAPPING args2
    = inr (names2, filenames2)
    ∧ names1 ≡ₚ names2 ∧ filenames1 ≡ₚ filenames2.
Proof.
  pose proof (parse_test_category_argument_known _ _ _ _ Hparse) as Hknown.
  destruct (parse_test_category_argument_total TEST_COLLECTION_MAPPING args2)
    as (names2 & filenames2 & Hparse2).
  { rewrite Forall_forall in Hknown. apply Forall_forall.
    intros token Htoken. apply Hknown. by apply Hsame. }
  exists names2, filenames2. split; [done|].
  apply parse_test_category_argument_inr in Hparse as (Hnd1 & Hndf1 & Hn1 & Hf1).
  apply parse_test_category_argument_inr in Hparse2 as (Hnd2 & Hndf2 & Hn2 & Hf2).
  assert (∀ n, n ∈ names1 ↔ n ∈ names2) as Hnames.
  { intros n. rewrite Hn1, Hn2. split; intros (t & Ht & Hexp); exists t;
      (split; [by apply Hsame | done]). }
  split.
  - by apply NoDup_Permutation.
  - apply NoDup_Permutation; [done..|]. intros f. rewrite Hf1, Hf2.
    split; intros (n & Hn & Hf); exists n; (split; [by apply Hnames | done]).
Qed.

Lemma X2_category_order_is_irrelevant_witness :
  let aliases : gmap string (list string) := {[ "ast" := ["simple"; "relevance"] ]} in
  ∃ names filenames,
    parse_test_category_argument aliases ["rest"; "ast"; "rest"]
    = inr (names, filenames)
    ∧ length names = 3.
Proof.
  intros aliases.
  destruct (parse_test_category_argument aliases ["ast"; "rest"])
    as [err|[names1 filenames1]] eqn:Hparse; [vm_compute in Hparse; discriminate|].
  destruct (X2_category_order_is_irrelevant aliases ["ast"; "rest"]
              ["rest"; "ast"; "rest"] names1 filenames1)
    as (names2 & filenames2 & Hparse2 & Hnames & _).
  - intros token. rewrite !elem_of_cons, !elem_of_nil. tauto.
  - exact Hparse.
  - exists names2, filenames2. split; [exact Hparse2|].
    rewrite <- Hnames. vm_compute in Hparse. by injection Hparse as <- <-.
Defined.

(** ** Missing data *)

Section MissingData.
Context {H : Type} `{Handler H}.

Lemma collect_loop_inl language filenames model_name w acc err :
  collect_loop language filenames model_name w acc = inl err →
  ∃ before f after,
    filenames = before ++ f :: after
    ∧ Forall (λ f, is_Some (data w !! data_path language f)) before
    ∧ data w !! data_path language f = None
    ∧ err = FileNotFoundError (data_path language f).
Proof.
  revert acc. induction filenames as [|f rest IH]; intros acc; simpl; [done|].
  destruct (data w !! data_path language f) as [test_cases|] eqn:Hf.
  - intros (before & f' & after & -> & Hbefore & Hnone & ->)%IH.
    exists (f :: before), f', after. split; [done|].
    split; [constructor; [by eexists | done] | done].
  - intros [= <-]. exists [], f, rest. by repeat split.
Qed.

(** The selection reads the data files and the logs, nothing else. *)
Lemma collect_loop_ext language filenames model_name w w' acc :
  files w' = files w → data w' = data w →
  collect_loop language filenames model_name w' acc
  = collect_loop language filenames model_name w acc.
Proof.
  intros Hf Hd. revert acc.
  induction filenames as [|f rest IH]; intros acc; simpl; [done|].
  rewrite Hd. destruct (data w !! data_path language f); [|done].
  unfold num_existing_result. rewrite Hf. apply IH.
Qed.

End MissingData.

(** X3: the selector raises exactly when the data file of one of the
    requested categories is missing, and the exception names the first
    missing file.  The model run then ends with that exception: no adapter
    is called and no log is touched. *)
Theorem X3_missing_data_file_stops_the_model_run {H : Type} `{Handler H}
    (handler_map : gmap string (ModelStyle * H))
    (USE_COHERE_OPTIMIZATION : bool) (args : Args)
    (test_filename_total : list string) (model_name : string) (w : World) :
  let run := run_model handler_map USE_COHERE_OPTIMIZATION args
               test_filename_total model_name w in
  match collect_test_cases (language args) test_filename_total
          (optimized_model_name USE_COHERE_OPTIMIZATION model_name) w with
  | inl err =>
      (∃ before f after,
         test_filename_total = before ++ f :: after
         ∧ Forall (λ f, is_Some (data w !! data_path (language args) f)) before
         ∧ data w !! data_path (language args) f = None
         ∧ err = FileNotFoundError (data_path (language args) f))
      ∧ run.2 = inl err ∧ files run.1 = files w ∧ trace run.1 = trace w
  | inr _ =>
      Forall (λ f, is_Some (data w !! data_path (language args) f))
             test_filename_total
  end.
Proof.
  intros run.
  destruct (collect_test_cases (language args) test_filename_total
              (optimized_model_name USE_COHERE_OPTIMIZATION model_name) w)
    as [err|pending] eqn:Hcollect.
  - split; [by eapply collect_loop_inl|].
    subst run. unfold run_model, collect_test_cases in *.
    rewrite (collect_loop_ext _ _ _ w) by done.
    by rewrite Hcollect.
  - by eapply collect_loop_inr.
Qed.

(** ** The log and the selection *)

(** X4: under the prefix invariant the selection is the complement of the
    log: for a category with a data file, the ids recorded in the log of a
    model followed by the ids of the cases selected for that model are the
    ids of all the cases of the data file, in order.  No case is both
    recorded and selected, and none is lost. *)
Theorem X4_selection_complements_the_log (language model_name test_category
    file_to_open : string) (w : World)
    (Hcategory : TEST_FILE_MAPPING !! test_category = Some file_to_open)
    (Hinv : prefix_invariant w) :
  (recorded_id <$> log_of language model_name test_category w)
  ++ ((Some ∘ tc_id) <$> pending_of language model_name w file_to_open)
  = (Some ∘ tc_id) <$> cases_of language file_to_open w.
Proof.
  destruct (Hinv language model_name test_category file_to_open Hcategory)
    as [k Hk].
  unfold pending_of. rewrite num_existing_result_length.
  rewrite (result_path_file_to_write _ _ test_category) by done.
  unfold log_of, cases_of in *.
  set (log := default [] (files w !! file_to_write language model_name test_category))
    in *.
  set (test_cases := default [] (data w !! data_path language file_to_open)) in *.
  assert (length log = min k (length test_cases)) as Hlen.
  { apply (f_equal length) in Hk. by rewrite !length_fmap, length_take in Hk. }
  assert (take k test_cases = take (length log) test_cases) as Htake.
  { rewrite Hlen, <- take_take. by rewrite (take_ge test_cases (length test_cases)). }
  by rewrite Hk, Htake, <- fmap_app, take_drop.
Qed.

Lemma X4_selection_complements_the_log_witness :
  let w := (main ∅ (run_handlers refused_run) false scenario_args scenario_world).1 in
  (recorded_id <$> log_of "en" "m" "simple" w)
  ++ ((Some ∘ tc_id) <$>
      pending_of "en" "m" w "gorilla_openfunctions_v1_test_simple.json")
  = [Some "simple_0"; Some "simple_1"; Some "simple_2"].
Proof.
  intros w.
  rewrite (X4_selection_complements_the_log "en" "m" "simple"
             "gorilla_openfunctions_v1_test_simple.json" w).
  - vm_compute. reflexivity.
  - vm_compute. reflexivity.
  - apply main_prefix_invariant.
    + exact scenario_world_well_formed.
    + apply prefix_invariant_no_logs. reflexivity.
Defined.

(** ** Partial writes *)



(** ** Writing and counting *)

(** X6: a record written for a test case is counted by the selector: after
    [write] has appended the record of a case of a category with a data
    file, the number of existing results of that data file, for the same
    model, is one more than before, and the numbers of the other data
    files are what they were. *)
Theorem X6_a_written_record_is_counted (language model_name test_category
    file_to_open : string) (test_case : TestCase) (result : json)
    (metadata : Metadata) (w : World)
    (Hcategory : TEST_FILE_MAPPING !! test_category = Some file_to_open)
    (Hid : category_of_id (tc_id test_case) = test_category) :
  let w' := (write model_name (result_to_write test_case result metadata)
               language w).1 in
  num_existing_result language model_name file_to_open w'
  = S (num_existing_result language model_name file_to_open w)
  ∧ ∀ other_category other_file,
      TEST_FILE_MAPPING !! other_category = Some other_file →
      other_category ≠ test_category →
      num_existing_result language model_name other_file w'
      = num_existing_result language model_name other_file w.
Proof.
  intros w'. subst w'.
  pose proof (TEST_FILE_MAPPING_lookup _ _ Hcategory) as (_ & Hslash & _).
  unfold result_to_write.
  rewrite (write_record_log _ _ _ (tc_id test_case)) by (by rewrite ?Hid).
  cbn [fst].
  split.
  - rewrite !num_existing_result_length.
    rewrite (result_path_file_to_write _ _ test_category) by done.
    rewrite lookup_append_line, Hid, decide_True by done.
    simpl. rewrite length_app. simpl. lia.
  - intros c' f' Hc' Hne. rewrite !num_existing_result_length.
    rewrite (result_path_file_to_write _ _ c') by done.
    rewrite lookup_append_line, Hid, decide_False; [done|].
    intros Heq. apply file_to_write_inj in Heq. congruence.
Qed.

Lemma X6_a_written_record_is_counted_witness :
  num_existing_result "en" "m" "gorilla_openfunctions_v1_test_simple.json"
    (write "m" (result_to_write (simple_case "1") (JStr "circle_area(radius=3)")
                  (usage 8)) "en" resumed_world).1
  = 2.
Proof.
  destruct (X6_a_written_record_is_counted "en" "m" "simple"
              "gorilla_openfunctions_v1_test_simple.json" (simple_case "1")
              (JStr "circle_area(radius=3)") (usage 8) resumed_world)
    as [Hcount _].
  - vm_compute. reflexivity.
  - vm_compute. reflexivity.
  - rewrite Hcount. vm_compute. reflexivity.
Defined.

(** ** Append-only logs *)

Section AppendOnly.
Context {H : Type} `{Handler H}.

Lemma extends_refl w : extends w w.
Proof.
  split; [done|]. split; [done|]. intros path lines Hl. exists [].
  by rewrite app_nil_r.
Qed.

Lemma extends_trans w1 w2 w3 : extends w1 w2 → extends w2 w3 → extends w1 w3.
Proof.
  intros (Hd1 & Hdirs1 & Hf1) (Hd2 & Hdirs2 & Hf2). split; [congruence|].
  split; [intros x Hx; by apply Hdirs2, Hdirs1|].
  intros path lines Hl. destruct (Hf1 path lines Hl) as [added1 Hl1].
  destruct (Hf2 path _ Hl1) as [added2 Hl2]. exists (added1 ++ added2).
  by rewrite Hl2, app_assoc.
Qed.

Lemma extends_same w w' :
  data w' = data w → dirs w' = dirs w → files w' = files w → extends w w'.
Proof.
  intros Hd Hdirs Hf. split; [done|]. split; [by rewrite Hdirs|].
  intros path lines Hl. exists []. by rewrite Hf, app_nil_r.
Qed.

Lemma extends_makedirs path w : extends w (makedirs path w).
Proof.
  split; [done|]. split; [simpl; apply union_subseteq_r|].
  intros p lines Hl. exists []. by rewrite app_nil_r.
Qed.

Lemma extends_append_line path line w : extends w (append_line path line w).
Proof.
  split; [done|]. split; [done|]. intros p lines Hl. rewrite lookup_append_line.
  case_decide as Hp.
  - subst p. rewrite Hl. by exists [line].
  - exists []. by rewrite app_nil_r.
Qed.

Lemma extends_open_append path line w :
  extends w (open_append path line w).1.
Proof.
  destruct (open_append_cases path line w) as [-> | ->];
    [apply extends_append_line | apply extends_refl].
Qed.

Lemma write_entries_extends model_name language entries w :
  extends w (write_entries model_name language entries w).1.
Proof.
  revert w. induction entries as [|entry rest IH]; intros w; simpl;
    [apply extends_refl|].
  destruct (entry_id entry) as [err|id]; simpl; [apply extends_refl|].
  destruct (open_append_cases
              (file_to_write language model_name (category_of_id id)) entry w)
    as [-> | ->]; [|apply extends_refl].
  eapply extends_trans; [apply extends_append_line | apply IH].
Qed.

Lemma write_extends model_name result language w :
  extends w (write model_name result language w).1.
Proof.
  unfold write.
  destruct result as [| | |[|c s]|l|kv]; try apply extends_makedirs;
    (eapply extends_trans; [apply extends_makedirs | apply write_entries_extends]).
Qed.

Lemma retry_loop_extends (h : H) w q f c n :
  extends w (retry_loop h w q f c n).1.2.
Proof.
  destruct (retry_loop_files h w q f c n) as (Hf & Hd & Hdirs).
  by apply extends_same.
Qed.

Lemma interactive_loop_extends args model_name (h : H) bound test_cases w :
  extends w (interactive_loop args model_name h bound test_cases w).1.
Proof.
  apply (interactive_loop_induction args model_name
           (λ h bound test_cases w res, extends w res.1)).
  - intros. apply extends_refl.
  - intros h0 b tc rest w0 h' w' e Hloop.
    pose proof (retry_loop_extends h0 w0 (tc_question tc)
                  (normalize_functions (tc_function tc))
                  (category_of_id (tc_id tc)) 0) as Hext.
    by rewrite Hloop in Hext.
  - intros h0 tc rest w0 h' w' Hloop.
    pose proof (retry_loop_extends h0 w0 (tc_question tc)
                  (normalize_functions (tc_function tc))
                  (category_of_id (tc_id tc)) 0) as Hext.
    by rewrite Hloop in Hext.
  - intros h0 b tc rest w0 h' w' exit r md res Hloop _ _ Hres.
    pose proof (retry_loop_extends h0 w0 (tc_question tc)
                  (normalize_functions (tc_function tc))
                  (category_of_id (tc_id tc)) 0) as Hext.
    rewrite Hloop in Hext. simpl in Hext.
    eapply extends_trans; [exact Hext|].
    eapply extends_trans; [apply extends_makedirs|].
    eapply extends_trans; [apply extends_append_line | exact Hres].
  - intros h0 b tc rest w0 h' w' exit r md Hloop _ _.
    pose proof (retry_loop_extends h0 w0 (tc_question tc)
                  (normalize_functions (tc_function tc))
                  (category_of_id (tc_id tc)) 0) as Hext.
    rewrite Hloop in Hext. simpl in Hext.
    eapply extends_trans; [exact Hext | apply extends_makedirs].
Qed.

Lemma batch_loop_extends args model_name pairs w :
  extends w (batch_loop args model_name pairs w).1.
Proof.
  revert w. induction pairs as [|[test_case res] rest IH]; intros w;
    [apply extends_refl|].
  cbn [batch_loop]. rewrite write_result_to_write_batch. unfold open_append.
  destruct (parent_exists _ _).
  - eapply extends_trans; [apply extends_makedirs|].
    eapply extends_trans; [apply extends_append_line | apply IH].
  - apply extends_makedirs.
Qed.

Lemma generate_results_extends handler_map args model_name test_cases w :
  extends w (generate_results handler_map args model_name test_cases w).1.
Proof.
  unfold generate_results.
  destruct (handler_map !! model_name) as [[model_style h]|];
    [|apply extends_refl].
  destruct (decide (model_style = OSSMODEL)) as [Hoss|Hother].
  - destruct (inference_batch h test_cases) as [h' [e|[result metadata]]].
    + by apply extends_same.
    + eapply extends_trans; [|apply batch_loop_extends]. by apply extends_same.
  - apply interactive_loop_extends.
Qed.

Lemma run_model_extends handler_map USE_COHERE_OPTIMIZATION args filenames
    model_name w :
  extends w (run_model handler_map USE_COHERE_OPTIMIZATION args filenames
               model_name w).1.
Proof.
  unfold run_model.
  set (w1 := makedirs _ (makedirs _ w)).
  assert (extends w w1) as Hw1.
  { eapply extends_trans; apply extends_makedirs. }
  destruct (collect_test_cases _ _ _ w1) as [err|pending]; [done|].
  destruct (length pending =? 0); [done|].
  eapply extends_trans; [exact Hw1 | apply generate_results_extends].
Qed.

Lemma run_models_extends handler_map USE_COHERE_OPTIMIZATION args filenames
    models w :
  extends w (run_models handler_map USE_COHERE_OPTIMIZATION args filenames
               models w).1.
Proof.
  revert w. induction models as [|model_name rest IH]; intros w;
    [apply extends_refl|].
  simpl.
  pose proof (run_model_extends handler_map USE_COHERE_OPTIMIZATION args
                filenames model_name w) as Hrun.
  destruct (run_model _ _ _ _ _ _) as [w1 [err|[]]]; [done|].
  eapply extends_trans; [exact Hrun | apply IH].
Qed.

End AppendOnly.

(** X7: the logs are append-only.  Whatever the adapters do and however the
    program ends, after [main] the benchmark data are unchanged, every
    directory is still there, and every file that existed holds its former
    lines, unchanged and in order, possibly followed by new ones: no line
    is ever removed or rewritten. *)
Theorem X7_logs_are_append_only {H : Type} `{Handler H}
    (TEST_COLLECTION_MAPPING : gmap string (list string))
    (handler_map : gmap string (ModelStyle * H))
    (USE_COHERE_OPTIMIZATION : bool) (args : Args) (w : World) :
  let w' := (main TEST_COLLECTION_MAPPING handler_map USE_COHERE_OPTIMIZATION
               args w).1 in
  data w' = data w
  ∧ dirs w ⊆ dirs w'
  ∧ ∀ path lines,
      files w !! path = Some lines →
      ∃ added, files w' !! path = Some (lines ++ added).
Proof.
  intros w'.
  assert (extends w w') as (Hd & Hdirs & Hf).
  { subst w'. unfold main.
    destruct (parse_test_category_argument _ _) as [err|[names filenames]];
      [apply extends_refl | apply run_models_extends]. }
  by split.
Qed.

(** ** Bounds of the retry loop *)

Section RetryBounds.
Context {H : Type} `{Handler H}.

Lemma count_calls_call q f c evs :
  count_calls (EvInference q f c :: evs) = S (count_calls evs).
Proof. unfold count_calls. by rewrite filter_cons_True. Qed.

Lemma count_calls_sleep d evs : count_calls (EvSleep d :: evs) = count_calls evs.
Proof. unfold count_calls. by rewrite filter_cons_False. Qed.

Lemma count_sleeps_call q f c evs :
  count_sleeps (EvInference q f c :: evs) = count_sleeps evs.
Proof. unfold count_sleeps. by rewrite filter_cons_False. Qed.

Lemma count_sleeps_sleep d evs : count_sleeps (EvSleep d :: evs) = S (count_sleeps evs).
Proof. unfold count_sleeps. by rewrite filter_cons_True. Qed.

(** The calls and sleeps of the loop entered with [n] retries used. *)
Lemma retry_loop_counts (h : H) w q f c n :
  ∃ evs,
    trace (retry_loop h w q f c n).1.2 = trace w ++ evs
    ∧ match (retry_loop h w q f c n).2 with
      | Exhausted =>
          n ≤ RETRY_LIMIT →
          count_calls evs = RETRY_LIMIT - n ∧ count_sleeps evs = count_calls evs
      | _ =>
          1 ≤ count_calls evs ∧ count_calls evs + n ≤ RETRY_LIMIT
          ∧ count_sleeps evs + 1 = count_calls evs
      end.
Proof.
  apply (retry_loop_induction q f c (λ h w n res,
    ∃ evs,
      trace res.1.2 = trace w ++ evs
      ∧ match res.2 with
        | Exhausted =>
            n ≤ RETRY_LIMIT →
            count_calls evs = RETRY_LIMIT - n ∧ count_sleeps evs = count_calls evs
        | _ =>
            1 ≤ count_calls evs ∧ count_calls evs + n ≤ RETRY_LIMIT
            ∧ count_sleeps evs + 1 = count_calls evs
        end)).
  - intros h0 w0 n0 Hge. exists []. simpl. rewrite app_nil_r.
    split; [done|]. intros Hle. split; [|done]. unfold count_calls. simpl. lia.
  - intros h0 w0 n0 h' r md Hlt Hinf. exists [EvInference q f c].
    split; [done|]. cbn [fst snd].
    rewrite count_calls_call, count_sleeps_call.
    unfold count_calls, count_sleeps. simpl. lia.
  - intros h0 w0 n0 h' e Hlt Hinf Htr. exists [EvInference q f c].
    split; [done|]. cbn [fst snd].
    rewrite count_calls_call, count_sleeps_call.
    unfold count_calls, count_sleeps. simpl. lia.
  - intros h0 w0 n0 h' e res Hlt Hinf Htr (evs & Htrace & Hcount).
    exists (EvInference q f c :: EvSleep RETRY_DELAY :: evs). split.
    + rewrite Htrace. simpl. by rewrite <- !app_assoc.
    + rewrite count_calls_call, count_calls_sleep, count_sleeps_call,
        count_sleeps_sleep.
      destruct res.2; [lia| |lia]. intros Hle. lia.
Qed.


End RetryBounds.

(** X8: the retry loop calls the adapter at least once and at most
    [RETRY_LIMIT] times for a test case, and it sleeps after every failed
    call it retries: when it is left with an answer or with an exception to
    re-raise, the sleeps are one fewer than the calls; when it is left
    because the retries are used up, there were [RETRY_LIMIT] calls and as
    many sleeps.  The loop blocks for at most [RETRY_LIMIT] times
    [RETRY_DELAY] seconds. *)
Theorem X8_retry_loop_bounds {H : Type} `{Handler H} (h : H) (w : World)
    (question functions : json) (test_category : string) :
  let loop := retry_loop h w question functions test_category 0 in
  ∃ evs,
    trace loop.1.2 = trace w ++ evs
    ∧ 1 ≤ count_calls evs ≤ RETRY_LIMIT
    ∧ count_sleeps evs ≤ RETRY_LIMIT
    ∧ (RETRY_DELAY * Z.of_nat (count_sleeps evs) ≤ 195)%Z
    ∧ match loop.2 with
      | Exhausted =>
          count_calls evs = RETRY_LIMIT ∧ count_sleeps evs = RETRY_LIMIT
      | _ => count_sleeps evs + 1 = count_calls evs
      end.
Proof.
  intros loop. subst loop.
  destruct (retry_loop_counts h w question functions test_category 0)
    as (evs & Htrace & Hcount).
  exists evs. split; [done|]. unfold RETRY_LIMIT, RETRY_DELAY in *.
  destruct (retry_loop h w question functions test_category 0).2.
  - lia.
  - destruct Hcount as [Hcalls Hsleeps]; [lia|]. lia.
  - lia.
Qed.


(** ** Ids, categories and file names *)

(** X10: the category of an id is read back from the format
    "<category>_<index>": whatever the category, underscores included, an
    id made of the category, an underscore and an index without underscore
    has that category; an id without any underscore is its own category. *)
Theorem X10_category_of_a_formatted_id (test_category index id : string)
    (Hindex : has_char "_" index = false)
    (Hid : has_char "_" id = false) :
  category_of_id (test_category +:+ "_" +:+ index) = test_category
  ∧ category_of_id id = id.
Proof.
  unfold category_of_id, PyStr.rsplit1_head. split.
  - change ("_" +:+ index) with (String "_" index).
    by rewrite before_last_append by by apply before_last_absent.
  - by rewrite before_last_absent.
Qed.

Lemma X10_category_of_a_formatted_id_witness :
  category_of_id ("executable_parallel_function" +:+ "_" +:+ "12")
  = "executable_parallel_function"
  ∧ category_of_id "simple" = "simple".
Proof.
  apply (X10_category_of_a_formatted_id "executable_parallel_function" "12" "simple");
    reflexivity.
Defined.

(** X11: the result directory of a model is named by the model name with
    every slash replaced by an underscore: the name has no slash left, it
    is as long as the model name, and it is the model name itself exactly
    when the model name has no slash. *)
Theorem X11_model_directory_name (model_name : string) :
  has_char "/" (model_name_dir model_name) = false
  ∧ String.length (model_name_dir model_name) = String.length model_name
  ∧ (model_name_dir model_name = model_name ↔ has_char "/" model_name = false)
  ∧ model_name_dir (model_name_dir model_name) = model_name_dir model_name.
Proof.
  unfold model_name_dir.
  split; [apply replace_slash_no_slash|]. split; [apply replace_slash_length|].
  split.
  - split; [|apply replace_slash_id].
    intros Heq. rewrite <- Heq. apply replace_slash_no_slash.
  - apply replace_slash_id, replace_slash_no_slash.
Qed.

(** X12: for each of the categories of [TEST_FILE_MAPPING] the log whose
    lines the selector counts is the file [write] appends the records of
    that category to, for every language and model; the data file is
    named after the category, and no other category shares it. *)
Theorem X12_selector_and_writer_agree_on_the_log (language model_name
    test_category file_to_open : string)
    (Hcategory : TEST_FILE_MAPPING !! test_category = Some file_to_open) :
  result_path language model_name file_to_open
  = file_to_write language model_name test_category
  ∧ file_to_open
    = "gorilla_openfunctions_v1_test_" +:+ test_category +:+ ".json"
  ∧ ∀ other_category,
      TEST_FILE_MAPPING !! other_category = Some file_to_open →
      other_category = test_category.
Proof.
  split; [by apply result_path_file_to_write|].
  pose proof (TEST_FILE_MAPPING_lookup _ _ Hcategory) as (Hf & _ & _).
  split; [done|]. intros c' Hc'.
  apply TEST_FILE_MAPPING_lookup in Hc' as (Hf' & _ & _).
  rewrite Hf in Hf'. apply (inj (String.append _)) in Hf'.
  symmetry. by apply append_inj_r in Hf'.
Qed.

Lemma X12_selector_and_writer_agree_on_the_log_witness :
  result_path "zhtw" "org/model" "gorilla_openfunctions_v1_test_rest.json"
  = file_to_write "zhtw" "org/model" "rest".
Proof.
  apply (X12_selector_and_writer_agree_on_the_log "zhtw" "org/model" "rest"
           "gorilla_openfunctions_v1_test_rest.json").
  reflexivity.
Defined.

(** X16: the rate-limit phrase is recognised in any capitalisation and
    anywhere in the message: an exception whose message contains a text
    that reads "rate limit reached" once put in lower case is transient,
    whatever its status code. *)
Theorem X16_rate_limit_phrase_in_any_case (e : PyExn)
    (before phrase after : string)
    (Hmessage : exn_str e = before +:+ phrase +:+ after)
    (Hphrase : PyStr.lower phrase = "rate limit reached") :
  is_transient e = true.
Proof.
  unfold is_transient. apply orb_true_iff. left. apply contains_spec.
  exists (PyStr.lower before), (PyStr.lower after).
  by rewrite Hmessage, !lower_append, Hphrase.
Qed.

Lemma X16_rate_limit_phrase_in_any_case_witness :
  is_transient {| exn_str := "429: Rate Limit REACHED, retry later";
                  exn_status_code := None |} = true.
Proof.
  apply (X16_rate_limit_phrase_in_any_case _ "429: " "Rate Limit REACHED"
           ", retry later"); reflexivity.
Defined.

(** ** What one model run touches *)

Section ModelRun.
Context {H : Type} `{Handler H}.

(** The records of a model run are those of a prefix of its selection. *)
Lemma run_model_written handler_map USE_COHERE_OPTIMIZATION args filenames
    model_name w :
  ∃ written : list (TestCase * json),
    written.*1 `prefix_of`
      concat (pending_of (language args)
                (optimized_model_name USE_COHERE_OPTIMIZATION model_name) w
              <$> filenames)
    ∧ files (run_model handler_map USE_COHERE_OPTIMIZATION args filenames
               model_name w).1
      = foldl (append_record (language args)
                 (optimized_model_name USE_COHERE_OPTIMIZATION model_name))
              (files w) written.
Proof.
  unfold run_model.
  set (m := optimized_model_name USE_COHERE_OPTIMIZATION model_name).
  set (w1 := makedirs _ (makedirs _ w)).
  destruct (collect_test_cases (language args) filenames m w1)
    as [err|pending] eqn:Hcollect.
  { exists []. split; [apply prefix_nil | done]. }
  apply collect_test_cases_inr in Hcollect as [_ ->].
  change (pending_of (language args) m w1) with (pending_of (language args) m w).
  destruct (length _ =? 0).
  { exists []. split; [apply prefix_nil | done]. }
  destruct (generate_results_written handler_map args m
              (concat (pending_of (language args) m w <$> filenames)) w1)
    as (written & Hpre & _ & Hfiles & _).
  by exists written.
Qed.

Lemma foldl_append_record_other language model_name language' model_name'
    test_category' logs (written : list (TestCase * json)) :
  Forall (λ p, known_category p.1) written →
  is_Some (TEST_FILE_MAPPING !! test_category') →
  language' ≠ language ∨ model_name_dir model_name' ≠ model_name_dir model_name →
  foldl (append_record language model_name) logs written
    !! file_to_write language' model_name' test_category'
  = logs !! file_to_write language' model_name' test_category'.
Proof.
  intros Hknown [f' Hc'] Hother. revert logs.
  induction Hknown as [|[test_case entry] rest [f Hc] _ IH]; intros logs; [done|].
  simpl. rewrite IH. unfold append_record. simpl.
  rewrite lookup_insert_ne; [done|]. intros Heq.
  apply TEST_FILE_MAPPING_lookup in Hc as (_ & Hs & _).
  apply TEST_FILE_MAPPING_lookup in Hc' as (_ & Hs' & _).
  apply file_to_write_eq in Heq as (Hl & Hd & _); [|done..].
  destruct Hother as [Hne|Hne]; congruence.
Qed.

Lemma selection_known_category language model_name w filenames :
  well_formed_data w →
  Forall (λ f, ∃ c, TEST_FILE_MAPPING !! c = Some f) filenames →
  Forall known_category (concat (pending_of language model_name w <$> filenames)).
Proof.
  intros Hwf Hall.
  apply Forall_concat, Forall_fmap, Forall_forall. intros f Hf. simpl.
  rewrite Forall_forall in Hall. destruct (Hall f Hf) as [c Hc].
  eapply Forall_impl; [by apply (pending_of_category _ _ _ c f)|].
  simpl. intros tc Htc. unfold known_category. rewrite Htc. by exists f.
Qed.

Lemma batch_loop_trace args model_name pairs w :
  trace (batch_loop args model_name pairs w).1 = trace w.
Proof.
  by destruct (batch_loop_written args model_name pairs w)
    as (done & _ & _ & _ & Htrace & _).
Qed.


(** The calls of either runner are about the cases it was given. *)
Lemma generate_results_trace handler_map args model_name test_cases w :
  ∃ evs,
    trace (generate_results handler_map args model_name test_cases w).1
    = trace w ++ evs
    ∧ Forall (λ ev,
        ev = EvSleep RETRY_DELAY
        ∨ ev = EvInferenceBatch test_cases
        ∨ ∃ test_case, test_case ∈ test_cases
            ∧ ev = EvInference (tc_question test_case)
                     (normalize_functions (tc_function test_case))
                     (category_of_id (tc_id test_case))) evs.
Proof.
  unfold generate_results.
  destruct (handler_map !! model_name) as [[model_style h]|].
  2: { exists []. by rewrite app_nil_r. }
  destruct (decide (model_style = OSSMODEL)) as [Hoss|Hother].
  - exists [EvInferenceBatch test_cases]. split.
    + destruct (inference_batch h test_cases) as [h' [e|[result metadata]]];
        [done|]. by rewrite batch_loop_trace.
    + apply Forall_singleton. by right; left.
  - destruct (interactive_loop_trace args model_name h None test_cases w)
      as (evs & Htrace & Hall).
    exists evs. split; [done|].
    eapply Forall_impl; [exact Hall|]. intros ev [?|?]; auto.
Qed.

End ModelRun.

(** X13: the runs of different models, and of different languages, keep
    apart.  With well-formed data, and with languages and result directory
    names that are plain path components, the run of a model leaves
    untouched the log of every category of [TEST_FILE_MAPPING] that belongs
    to another language or to a model with another result directory. *)
Theorem X13_a_model_run_leaves_other_logs_alone {H : Type} `{Handler H}
    (handler_map : gmap string (ModelStyle * H))
    (USE_COHERE_OPTIMIZATION : bool) (args : Args)
    (test_filename_total : list string) (model_name : string) (w : World)
    (other_language other_model test_category : string)
    (Hdata : well_formed_data w)
    (Hfiles : Forall (λ f, ∃ c, TEST_FILE_MAPPING !! c = Some f)
                test_filename_total)
    (Hcategory : is_Some (TEST_FILE_MAPPING !! test_category))
    (Hlanguage : plain_component (language args))
    (Hmodel : plain_component
                (model_name_dir
                   (optimized_model_name USE_COHERE_OPTIMIZATION model_name)))
    (Hother_language : plain_component other_language)
    (Hother_model : plain_component (model_name_dir other_model))
    (Hother : other_language ≠ language args
              ∨ model_name_dir other_model
                ≠ model_name_dir
                    (optimized_model_name USE_COHERE_OPTIMIZATION model_name)) :
  files (run_model handler_map USE_COHERE_OPTIMIZATION args test_filename_total
           model_name w).1
    !! file_to_write other_language other_model test_category
  = files w !! file_to_write other_language other_model test_category.
Proof.
  destruct (run_model_written handler_map USE_COHERE_OPTIMIZATION args
              test_filename_total model_name w) as (written & [rest Hpre] & ->).
  apply foldl_append_record_other; [|done..].
  pose proof (selection_known_category (language args)
                (optimized_model_name USE_COHERE_OPTIMIZATION model_name)
                w test_filename_total Hdata Hfiles) as Hknown.
  rewrite Hpre in Hknown. apply Forall_app in Hknown as [Hknown _].
  by rewrite Forall_fmap in Hknown.
Qed.

Lemma X13_a_model_run_leaves_other_logs_alone_witness :
  files (run_model (run_handlers complete_run) false scenario_args
           ["gorilla_openfunctions_v1_test_simple.json"] "m" resumed_world).1
    !! file_to_write "en" "another/model" "simple"
  = None.
Proof.
  rewrite (X13_a_model_run_leaves_other_logs_alone (run_handlers complete_run)
             false scenario_args ["gorilla_openfunctions_v1_test_simple.json"]
             "m" resumed_world "en" "another/model" "simple").
  - vm_compute. reflexivity.
  - apply (well_formed_data_one_file "en" "simple"
             "gorilla_openfunctions_v1_test_simple.json"
             [simple_case "0"; simple_case "1"; simple_case "2"]);
      [by vm_compute | done | by repeat constructor].
  - apply Forall_singleton. exists "simple". by vm_compute.
  - exists "gorilla_openfunctions_v1_test_simple.json". by vm_compute.
  - by vm_compute.
  - by vm_compute.
  - by vm_compute.
  - by vm_compute.
  - right. vm_compute. discriminate.
Defined.

(** X14: within one call of [generate_results] a case is recorded at most
    once and in the order of the list: the records appended are those of a
    prefix of the pending cases, one record per case under the id of the
    case; the prefix is the whole list when the call ends normally (in
    batch-native mode, when the adapter has answered every question). *)
Theorem X14_one_record_per_processed_case {H : Type} `{Handler H}
    (handler_map : gmap string (ModelStyle * H)) (args : Args)
    (model_name : string) (test_cases_total : list TestCase) (w : World) :
  let run := generate_results handler_map args model_name test_cases_total w in
  ∃ written : list (TestCase * json),
    written.*1 `prefix_of` test_cases_total
    ∧ Forall (λ p, recorded_id p.2 = Some (tc_id p.1)) written
    ∧ files run.1 = foldl (append_record (language args) model_name) (files w) written
    ∧ (batch_answers_all handler_map → run.2 = inr tt →
       written.*1 = test_cases_total).
Proof.
  intros run.
  destruct (generate_results_written handler_map args model_name
              test_cases_total w) as (written & Hpre & Hids & Hfiles & _ & Hall).
  by exists written.
Qed.



(** X17: the adapter is only asked about pending cases.  Every adapter
    call of a model run is either the batch call on the selected cases or
    an interactive call carrying the question, the normalized functions and
    the category of one of the selected cases; the cases the selector
    skipped because they are recorded never reach the adapter. *)
Theorem X17_only_pending_cases_reach_the_adapter {H : Type} `{Handler H}
    (handler_map : gmap string (ModelStyle * H))
    (USE_COHERE_OPTIMIZATION : bool) (args : Args)
    (test_filename_total : list string) (model_name : string) (w : World) :
  let pending :=
    concat (pending_of (language args)
              (optimized_model_name USE_COHERE_OPTIMIZATION model_name) w
            <$> test_filename_total) in
  ∃ evs,
    trace (run_model handler_map USE_COHERE_OPTIMIZATION args test_filename_total
             model_name w).1 = trace w ++ evs
    ∧ Forall (λ ev,
        ev = EvSleep RETRY_DELAY
        ∨ ev = EvInferenceBatch pending
        ∨ ∃ test_case, test_case ∈ pending
            ∧ ev = EvInference (tc_question test_case)
                     (normalize_functions (tc_function test_case))
                     (category_of_id (tc_id test_case))) evs.
Proof.
  intros pending. subst pending. unfold run_model.
  set (m := optimized_model_name USE_COHERE_OPTIMIZATION model_name).
  set (w1 := makedirs _ (makedirs _ w)).
  destruct (collect_test_cases (language args) test_filename_total m w1)
    as [err|pending] eqn:Hcollect.
  { exists []. by rewrite app_nil_r. }
  apply collect_test_cases_inr in Hcollect as [_ ->].
  change (pending_of (language args) m w1) with (pending_of (language args) m w).
  destruct (length _ =? 0).
  { exists []. by rewrite app_nil_r. }
  destruct (generate_results_trace handler_map args m
              (concat (pending_of (language args) m w <$> test_filename_total)) w1)
    as (evs & Htrace & Hall).
  exists evs. split; [exact Htrace | exact Hall].
Qed.

(** ** Across runs *)



(** X19: a run that ends normally has recorded every selected case.  With
    well-formed data, logs that hold a prefix of the cases and batch
    adapters that answer every question, after [main] has ended without an
    exception the log of every requested category, for every model of the
    run, records the ids of all the cases of the category, each once and in
    the order of the data file. *)
Theorem X19_a_normal_run_records_every_selected_case {H : Type} `{Handler H}
    (TEST_COLLECTION_MAPPING : gmap string (list string))
    (handler_map : gmap string (ModelStyle * H))
    (USE_COHERE_OPTIMIZATION : bool) (args : Args) (w w1 : World)
    (test_name_total test_filename_total : list string)
    (Hdata : well_formed_data w)
    (Hstart : prefix_invariant w)
    (Hbatch : batch_answers_all handler_map)
    (Hparse : parse_test_category_argument TEST_COLLECTION_MAPPING
                (test_category args)
              = inr (test_name_total, test_filename_total))
    (Hrun : main TEST_COLLECTION_MAPPING handler_map USE_COHERE_OPTIMIZATION
              args w = (w1, inr tt)) :
  ∀ model_name test_category file_to_open,
    model_name ∈ model args →
    test_category ∈ test_name_total →
    TEST_FILE_MAPPING !! test_category = Some file_to_open →
    recorded_id <$>
      log_of (language args)
        (optimized_model_name USE_COHERE_OPTIMIZATION model_name)
        test_category w1
    = (Some ∘ tc_id) <$> cases_of (language args) file_to_open w1.
Proof.
  intros model_name c f Hmodel Hc Hf.
  pose proof (main_prefix_invariant TEST_COLLECTION_MAPPING handler_map
                USE_COHERE_OPTIMIZATION args w Hdata Hstart) as [Hinv _].
  rewrite Hrun in Hinv. simpl in Hinv.
  unfold main in Hrun. rewrite Hparse in Hrun.
  apply parse_test_category_argument_inr in Hparse as (_ & Hnodup & _ & Hfiles).
  assert (Forall (λ f, ∃ c, TEST_FILE_MAPPING !! c = Some f) test_filename_total)
    as Hall.
  { apply Forall_forall. intros f' Hf'. apply Hfiles in Hf' as (c' & _ & Hc').
    by exists c'. }
  destruct (run_models_all_recorded handler_map USE_COHERE_OPTIMIZATION args
              test_filename_total (model args) w w1 Hdata Hnodup Hall Hbatch Hrun)
    as (_ & _ & _ & Hrec).
  rewrite Forall_forall in Hrec. specialize (Hrec model_name Hmodel).
  rewrite Forall_forall in Hrec.
  assert (f ∈ test_filename_total) as Hin by (apply Hfiles; by exists c).
  specialize (Hrec f Hin). unfold all_recorded in Hrec.
  rewrite num_existing_result_length in Hrec.
  rewrite (result_path_file_to_write _ _ c) in Hrec by done.
  destruct (Hinv (language args)
              (optimized_model_name USE_COHERE_OPTIMIZATION model_name) c f Hf)
    as [k Hk].
  unfold log_of in *. rewrite Hk. f_equal. apply take_ge.
  apply (f_equal length) in Hk. rewrite !length_fmap, length_take in Hk. lia.
Qed.

Lemma X19_a_normal_run_records_every_selected_case_witness :
  recorded_id <$>
    log_of "en" "m" "simple"
      (main ∅ (run_handlers complete_run) false scenario_args scenario_world).1
  = [Some "simple_0"; Some "simple_1"; Some "simple_2"].
Proof.
  pose proof (X19_a_normal_run_records_every_selected_case ∅
             (run_handlers complete_run) false scenario_args scenario_world
             (main ∅ (run_handlers complete_run) false scenario_args
                scenario_world).1
             ["simple"] ["gorilla_openfunctions_v1_test_simple.json"]
             scenario_world_well_formed
             (prefix_invariant_no_logs scenario_world eq_refl)) as Hall.
  etrans.
  - apply (Hall
             ltac:(intros model_name h test_cases h' result metadata Hh;
                   unfold complete_run in Hh; simpl in Hh;
                   apply lookup_singleton_Some in Hh as [_ Hh]; discriminate)
             ltac:(vm_compute; reflexivity)
             ltac:(vm_compute; reflexivity)
             "m" "simple" "gorilla_openfunctions_v1_test_simple.json");
      [apply list_elem_of_here | apply list_elem_of_here | vm_compute; reflexivity].
  - vm_compute. reflexivity.
Defined.

(** ** Writing a list of records *)


